(** * Chan-theory K-line pipeline: merge engine, fractal detector, pen builder

    A shallow embedding of [kline_data.py], [kline_merger.py] and the
    analytical part of [kline_visualizer.py], followed by the properties the
    specification states about them.

    Conventions.
    - Prices ([high], [low], [price]) are Python floats that the pipeline only
      compares and feeds to [max]/[min]; they are embedded as [Z] (a price in
      ticks), a total order like the floats without NaN. The merge engine
      and the validation are given once more over prices that can be NaN,
      in the modules [Float] and [OverFloat].
    - Timestamps ([datetime]) are only copied and compared; they are [Z].
    - Python [int] is [Z]; positions in a list ([range(...)] cursors that are
      used to subscript) are [nat].
    - A raised exception is the [Raise] outcome of [except]. *)

From Stdlib Require Import ZArith Lia List Bool.
From stdpp Require Import base decidable option list gmap sorting strings.
Import ListNotations.

Local Open Scope Z_scope.

(** ** Outcomes of fallible code *)

Inductive error := ValueError.

Inductive except (A : Type) : Type :=
| Return (a : A)
| Raise (e : error).
Arguments Return {A} a.
Arguments Raise {A} e.

(** ** kline_data.py *)

Module KLine.
Record t := mk { timestamp : Z; high : Z; low : Z }.

(** The dataclass constructor followed by [__post_init__]. *)
Definition new (timestamp high low : Z) : except t :=
  if high <? low then Raise ValueError else Return (mk timestamp high low).
End KLine.

Module MergedKLine.
Record t := mk {
  start_time : Z;
  end_time : Z;
  high : Z;
  low : Z;
  original_count : Z
}.
End MergedKLine.

#[global] Instance KLine_eq_dec : EqDecision KLine.t.
Proof. solve_decision. Defined.
#[global] Instance MergedKLine_eq_dec : EqDecision MergedKLine.t.
Proof. solve_decision. Defined.

(** ** kline_merger.py *)

(** The strings ['up'] / ['down'] (trend of a merge, direction of a pen). *)
Inductive trend := up | down.

(** The second component of [_has_inclusion_relationship]'s result. *)
Inductive inclusion := incl_k1_contains_k2 | incl_k2_contains_k1 | incl_none.

(** The strings ['top'] / ['bottom']. *)
Inductive fractal_type := top | bottom.

#[global] Instance trend_eq_dec : EqDecision trend.
Proof. solve_decision. Defined.
#[global] Instance inclusion_eq_dec : EqDecision inclusion.
Proof. solve_decision. Defined.
#[global] Instance fractal_type_eq_dec : EqDecision fractal_type.
Proof. solve_decision. Defined.

Module KLineMerger.
Import MergedKLine.

Definition _has_inclusion_relationship (k1 k2 : MergedKLine.t) : bool * inclusion :=
  let k1_contains_k2 := (high k2 <=? high k1) && (low k1 <=? low k2) in
  let k2_contains_k1 := (high k1 <=? high k2) && (low k2 <=? low k1) in
  if k1_contains_k2 then (true, incl_k1_contains_k2)
  else if k2_contains_k1 then (true, incl_k2_contains_k1)
  else (false, incl_none).

Definition _merge_inclusion_relationship
    (k1 k2 : MergedKLine.t) (trend_direction : trend) : MergedKLine.t :=
  let '(merged_high, merged_low) :=
    match trend_direction with
    | up => (Z.max (high k1) (high k2), Z.max (low k1) (low k2))
    | down => (Z.min (high k1) (high k2), Z.min (low k1) (low k2))
    end in
  {| start_time := start_time k1;
     end_time := end_time k2;
     high := merged_high;
     low := merged_low;
     original_count := original_count k1 + original_count k2 |}.

(** [merged_klines[-1]] is [last merged_klines]; the list is not empty
    where it is read. *)
Definition _determine_trend_direction
    (current_k next_k : MergedKLine.t) (merged_klines : list MergedKLine.t) : trend :=
  match last merged_klines with
  | None => up
  | Some prev_k =>
      if high prev_k <=? high current_k then up
      else if low current_k <=? low prev_k then down
      else if high prev_k <? high current_k then up
      else down
  end.

Definition _kline_to_merged (kline : KLine.t) : MergedKLine.t :=
  {| start_time := KLine.timestamp kline;
     end_time := KLine.timestamp kline;
     high := KLine.high kline;
     low := KLine.low kline;
     original_count := 1 |}.

(** [index] is used as a subscript, so it is a position. The guard
    [index == 0 or index >= len(klines) - 1] is written over [Z] because
    [len(klines) - 1] is [-1] for the empty list. *)
Definition _detect_fractal_type (klines : list MergedKLine.t) (index : nat)
    : option fractal_type :=
  if (Z.of_nat index =? 0) || (Z.of_nat (length klines) - 1 <=? Z.of_nat index)
  then None
  else
    match klines !! (index - 1)%nat, klines !! index, klines !! (index + 1)%nat with
    | Some prev_k, Some curr_k, Some next_k =>
        if (high prev_k <? high curr_k) && (high next_k <? high curr_k)
           && (low prev_k <? low curr_k) && (low next_k <? low curr_k)
        then Some top
        else if (high curr_k <? high prev_k) && (high curr_k <? high next_k)
                && (low curr_k <? low prev_k) && (low curr_k <? low next_k)
        then Some bottom
        else None
    | _, _, _ => None
    end.

(** The state of the loop of [merge_klines]: the finalized bars
    [merged_result] and the bar being built, [current_merged]. *)
Definition merge_state : Type := list MergedKLine.t * MergedKLine.t.

(** One iteration of [for i in range(1, len(klines))]. *)
Definition merge_step (st : merge_state) (kline : KLine.t) : merge_state :=
  let '(merged_result, current_merged) := st in
  let next_kline := _kline_to_merged kline in
  match _has_inclusion_relationship current_merged next_kline with
  | (true, incl_k1_contains_k2) =>
      let trend_direction :=
        _determine_trend_direction current_merged next_kline merged_result in
      (merged_result,
       _merge_inclusion_relationship current_merged next_kline trend_direction)
  | (true, _) => (merged_result ++ [current_merged], next_kline)
  | (false, _) => (merged_result ++ [current_merged], next_kline)
  end.

(** [range(1, len(merged_klines) - 1)]: empty when the list has fewer than
    three bars. *)
Definition fractal_positions {A} (l : list A) : list nat :=
  seq 1 (length l - 2)%nat.

Definition _detect_fractals (merged_klines : list MergedKLine.t)
    : list (nat * fractal_type * MergedKLine.t) :=
  omap (fun i =>
          match _detect_fractal_type merged_klines i, merged_klines !! i with
          | Some fractal_type, Some k => Some (i, fractal_type, k)
          | _, _ => None
          end)
       (fractal_positions merged_klines).

(** The call [self._detect_fractals(merged_result)] at the end only logs;
    its result is dropped. *)
Definition merge_klines (klines : list KLine.t) : list MergedKLine.t :=
  match klines with
  | [] => []
  | [k] => [_kline_to_merged k]
  | k0 :: rest =>
      let '(merged_result, current_merged) :=
        fold_left merge_step rest ([], _kline_to_merged k0) in
      merged_result ++ [current_merged]
  end.
End KLineMerger.

(** ** kline_visualizer.py (the analytical part) *)

Module Fractal.
Record t := mk {
  index : Z;
  type : fractal_type;
  kline : MergedKLine.t;
  price : Z;
  time : Z
}.

(** [Fractal.__init__]. *)
Definition new (index : Z) (fractal_type : fractal_type) (kline : MergedKLine.t) : t :=
  {| index := index;
     type := fractal_type;
     kline := kline;
     price := match fractal_type with
              | top => MergedKLine.high kline
              | bottom => MergedKLine.low kline
              end;
     time := MergedKLine.start_time kline |}.
End Fractal.

(** [Fractal] defines neither [__eq__] nor [__hash__]: [fractals.index(f)],
    [f in used_fractals] and [used_fractals.add(f)] go by object identity.
    A list of fractals is therefore a list of references into a store of
    fractal objects; no fractal is written after its construction, so the
    store is read-only. *)
Definition ref := nat.
Definition store := ref -> Fractal.t.

Module Pen.
Record t := mk {
  start_fractal : ref;
  end_fractal : ref;
  start_time : Z;
  end_time : Z;
  start_price : Z;
  end_price : Z;
  direction : trend
}.

(** [Pen.__init__]. *)
Definition new (objs : store) (start_fractal end_fractal : ref) : t :=
  {| start_fractal := start_fractal;
     end_fractal := end_fractal;
     start_time := Fractal.time (objs start_fractal);
     end_time := Fractal.time (objs end_fractal);
     start_price := Fractal.price (objs start_fractal);
     end_price := Fractal.price (objs end_fractal);
     direction := if Fractal.price (objs start_fractal) <? Fractal.price (objs end_fractal)
                  then up else down |}.
End Pen.

(** Python's [range(a, b)] over integers. *)
Definition range (a b : Z) : list Z := seqZ a (b - a).

Module KLineVisualizer.
Import MergedKLine.

Definition _detect_fractal_type (klines : list MergedKLine.t) (index : nat)
    : option fractal_type :=
  if (Z.of_nat index =? 0) || (Z.of_nat (length klines) - 1 <=? Z.of_nat index)
  then None
  else
    match klines !! (index - 1)%nat, klines !! index, klines !! (index + 1)%nat with
    | Some prev_k, Some curr_k, Some next_k =>
        if (high prev_k <? high curr_k) && (high next_k <? high curr_k)
           && (low prev_k <? low curr_k) && (low next_k <? low curr_k)
        then Some top
        else if (high curr_k <? high prev_k) && (high curr_k <? high next_k)
                && (low curr_k <? low prev_k) && (low curr_k <? low next_k)
        then Some bottom
        else None
    | _, _, _ => None
    end.

(** The fractals are returned as values, in the order of construction. *)
Definition detect_fractals (merged_klines : list MergedKLine.t) : list Fractal.t :=
  omap (fun i =>
          match _detect_fractal_type merged_klines i, merged_klines !! i with
          | Some fractal_type, Some k => Some (Fractal.new (Z.of_nat i) fractal_type k)
          | _, _ => None
          end)
       (KLineMerger.fractal_positions merged_klines).

Definition _has_independent_klines_between (fractal1 fractal2 : Fractal.t) : bool :=
  let start_index := Z.min (Fractal.index fractal1) (Fractal.index fractal2) in
  let end_index := Z.max (Fractal.index fractal1) (Fractal.index fractal2) in
  if end_index - start_index <=? 2 then false
  else
    let fractal1_range : gset Z :=
      list_to_set (range (Z.max 0 (Fractal.index fractal1 - 1)) (Fractal.index fractal1 + 2)) in
    let fractal2_range : gset Z :=
      list_to_set (range (Z.max 0 (Fractal.index fractal2 - 1)) (Fractal.index fractal2 + 2)) in
    let independent_klines :=
      filter (fun k_index => (k_index ∉ fractal1_range) ∧ (k_index ∉ fractal2_range))
             (range (start_index + 1) end_index) in
    bool_decide (1 <= length independent_klines)%nat.

(** [fractals.index(f)]: the first position holding the object [f];
    Python raises [ValueError] when there is none. *)
Definition list_index (f : ref) (fractals : list ref) : option nat :=
  fst <$> list_find (fun g => g = f) fractals.

Section WithStore.
Variable objs : store.

(** The body of [for j in range(start_index + 1, len(fractals))], over
    the candidates [fractals[start_index + 1:]] that are left;
    [break] returns [last_valid_fractal]. *)
Fixpoint scan_pen_end (start_fractal : ref) (target_type : fractal_type)
    (candidates : list ref) (last_valid_fractal : option ref) : option ref :=
  match candidates with
  | [] => last_valid_fractal
  | candidate_fractal :: candidates =>
      if decide (Fractal.type (objs candidate_fractal) = target_type) then
        let has_independent :=
          _has_independent_klines_between (objs start_fractal) (objs candidate_fractal) in
        if has_independent
        then scan_pen_end start_fractal target_type candidates (Some candidate_fractal)
        else scan_pen_end start_fractal target_type candidates last_valid_fractal
      else if decide (Fractal.type (objs candidate_fractal)
                      = Fractal.type (objs start_fractal)) then
        match last_valid_fractal with
        | Some _ => last_valid_fractal
        | None => scan_pen_end start_fractal target_type candidates last_valid_fractal
        end
      else scan_pen_end start_fractal target_type candidates last_valid_fractal
  end.

Definition _find_valid_pen_end (start_fractal : ref) (fractals : list ref)
    (start_index : nat) (target_type : fractal_type) : option ref :=
  scan_pen_end start_fractal target_type (drop (S start_index) fractals) None.

(** ['top' if f.type == 'bottom' else 'bottom']. *)
Definition target_of (f : ref) : fractal_type :=
  if decide (Fractal.type (objs f) = bottom) then top else bottom.

(** The first loop of [calculate_pens],
    [while start_index < len(fractals)], over the fractals from
    [start_index] on. *)
Fixpoint find_first_start (fractals : list ref) (from : list ref) (start_index : nat)
    : option ref :=
  match from with
  | [] => None
  | candidate_start :: from =>
      let target_type := target_of candidate_start in
      match _find_valid_pen_end candidate_start fractals start_index target_type with
      | Some _ => Some candidate_start
      | None => find_first_start fractals from (S start_index)
      end
  end.

(** The second loop, [while current_fractal is not None]. With the same
    object present twice in [fractals] the loop need not end, so the
    iterations are counted by [fuel]; [None] is "out of fuel". *)
Fixpoint build_pens (fuel : nat) (fractals : list ref) (pens : list Pen.t)
    (used_fractals : gset ref) (current_fractal : ref)
    : option (except (list Pen.t)) :=
  match fuel with
  | O => None
  | S fuel =>
      match list_index current_fractal fractals with
      | None => Some (Raise ValueError)
      | Some current_index =>
          let target_type := target_of current_fractal in
          match _find_valid_pen_end current_fractal fractals current_index target_type with
          | Some valid_end_fractal =>
              let pen := Pen.new objs current_fractal valid_end_fractal in
              build_pens fuel fractals (pens ++ [pen])
                ({[valid_end_fractal]} ∪ ({[current_fractal]} ∪ used_fractals))
                valid_end_fractal
          | None =>
              let remaining_fractals :=
                filter (fun f => f ∉ used_fractals) (drop (S current_index) fractals) in
              match list_find (fun remaining_fractal =>
                                 Fractal.type (objs remaining_fractal)
                                 ≠ Fractal.type (objs current_fractal))
                              remaining_fractals with
              | Some (_, new_start_fractal) =>
                  build_pens fuel fractals pens used_fractals new_start_fractal
              | None => Some (Return pens)
              end
          end
      end
  end.

(** [calculate_pens] with its argument given (the default [None] stands
    for [self.fractals]); the value is the list returned. *)
Definition calculate_pens (fuel : nat) (fractals : list ref)
    : option (except (list Pen.t)) :=
  if bool_decide (length fractals < 2)%nat then Some (Return [])
  else
    match find_first_start fractals fractals 0 with
    | None => Some (Return [])
    | Some current_fractal => build_pens fuel fractals [] ∅ current_fractal
    end.
End WithStore.

(** [plot_klines] and the GUI call [detect_fractals] and hand its result
    to [calculate_pens]: the freshly built fractals are distinct objects,
    stored here at the addresses [0, 1, ...]. *)
Definition store_of (fractals : list Fractal.t) : store :=
  fun r => nth r fractals (Fractal.new 0 top (MergedKLine.mk 0 0 0 0 0)).

Definition refs_of (fractals : list Fractal.t) : list ref :=
  seq 0 (length fractals).
End KLineVisualizer.

(** The three stages in sequence, as [plot_klines] and the GUI run them on
    the merged bars: [detect_fractals], then [calculate_pens] on its
    result. *)
Definition pipeline (fuel : nat) (klines : list KLine.t)
    : list MergedKLine.t * list Fractal.t * option (except (list Pen.t)) :=
  let merged_klines := KLineMerger.merge_klines klines in
  let fractals := KLineVisualizer.detect_fractals merged_klines in
  let pens :=
    KLineVisualizer.calculate_pens (KLineVisualizer.store_of fractals) fuel
      (KLineVisualizer.refs_of fractals) in
  (merged_klines, fractals, pens).

(** * Vocabulary of the properties *)

(** ** Bars *)

Definition valid_raw (k : KLine.t) : Prop := KLine.low k <= KLine.high k.

(** The three invariants of a compressed bar. *)
Definition well_formed (m : MergedKLine.t) : Prop :=
  MergedKLine.low m <= MergedKLine.high m ∧
  MergedKLine.start_time m <= MergedKLine.end_time m ∧
  1 <= MergedKLine.original_count m.

(** [sum(k.original_count for k in merged_klines)], as in
    [get_merge_statistics]. *)
Definition total_merged_count (merged_klines : list MergedKLine.t) : Z :=
  foldr (fun k acc => MergedKLine.original_count k + acc) 0 merged_klines.

(** [k1] contains [k2]: the first inclusion predicate; the second is
    [contains k2 k1]. *)
Definition contains (k1 k2 : MergedKLine.t) : Prop :=
  MergedKLine.high k2 <= MergedKLine.high k1 ∧ MergedKLine.low k1 <= MergedKLine.low k2.

(** No two neighbours of [l] are in an inclusion relation, either way. *)
Definition inclusion_free (l : list MergedKLine.t) : Prop :=
  ∀ i a b, l !! i = Some a → l !! S i = Some b → ¬ contains a b ∧ ¬ contains b a.

(** A compressed bar read back as a raw bar, to run the merge again. *)
Definition as_raw (m : MergedKLine.t) : KLine.t :=
  KLine.mk (MergedKLine.start_time m) (MergedKLine.high m) (MergedKLine.low m).

Definition price_range (m : MergedKLine.t) : Z * Z :=
  (MergedKLine.high m, MergedKLine.low m).

(** The raw bar that follows the group of the [i]-th compressed bar: the
    counts of the bars up to [i] give its position in the input. *)
Definition next_raw (klines : list KLine.t) (out : list MergedKLine.t) (i : nat)
    : option KLine.t :=
  klines !! Z.to_nat (total_merged_count (take (S i) out)).

(** ** Invariants of the merge loop, over the bars [k0 :: pre] consumed *)

Definition counts_inv (k0 : KLine.t) (pre : list KLine.t)
    (st : KLineMerger.merge_state) : Prop :=
  Forall valid_raw (k0 :: pre) →
  StronglySorted Z.le (KLine.timestamp <$> k0 :: pre) →
  Forall well_formed st.1 ∧ well_formed st.2 ∧
  (∃ k, last (k0 :: pre) = Some k ∧ MergedKLine.end_time st.2 = KLine.timestamp k) ∧
  total_merged_count st.1 + MergedKLine.original_count st.2
  = Z.of_nat (length (k0 :: pre)).

(** The bar being built satisfies one of the two comparisons of the trend
    rule against the last finalized bar. *)
Definition trend_decided (st : KLineMerger.merge_state) : Prop :=
  ∀ prev_k, last st.1 = Some prev_k →
    MergedKLine.high prev_k <= MergedKLine.high st.2
    ∨ MergedKLine.low st.2 <= MergedKLine.low prev_k.

(** Every finalized bar is followed, in the input, by a raw bar it does not
    contain, and that raw bar opens the next compressed bar. *)
Definition boundary_inv (k0 : KLine.t) (pre : list KLine.t)
    (st : KLineMerger.merge_state) : Prop :=
  total_merged_count st.1 + MergedKLine.original_count st.2
  = Z.of_nat (length (k0 :: pre)) ∧
  ∀ i a b, st.1 !! i = Some a → (st.1 ++ [st.2]) !! S i = Some b →
    ∃ r, next_raw (k0 :: pre) st.1 i = Some r ∧
         MergedKLine.start_time b = KLine.timestamp r ∧
         ¬ contains a (KLineMerger._kline_to_merged r).

(** ** Fractals *)

(** Bar [c] against its neighbours [p] and [n], strictly on all four
    comparisons. *)
Definition strictly_above (p c n : MergedKLine.t) : Prop :=
  MergedKLine.high p < MergedKLine.high c ∧ MergedKLine.high n < MergedKLine.high c ∧
  MergedKLine.low p < MergedKLine.low c ∧ MergedKLine.low n < MergedKLine.low c.

Definition strictly_below (p c n : MergedKLine.t) : Prop :=
  MergedKLine.high c < MergedKLine.high p ∧ MergedKLine.high c < MergedKLine.high n ∧
  MergedKLine.low c < MergedKLine.low p ∧ MergedKLine.low c < MergedKLine.low n.

Definition pattern (t : fractal_type)
    : MergedKLine.t → MergedKLine.t → MergedKLine.t → Prop :=
  match t with top => strictly_above | bottom => strictly_below end.

(** Some comparison of [c] with a neighbour is an equality. *)
Definition tie (p c n : MergedKLine.t) : Prop :=
  MergedKLine.high c = MergedKLine.high p ∨ MergedKLine.high c = MergedKLine.high n ∨
  MergedKLine.low c = MergedKLine.low p ∨ MergedKLine.low c = MergedKLine.low n.

(** [i] is an inner position of [klines], with bar [c] and neighbours [p]
    and [n]. *)
Definition inner_position (klines : list MergedKLine.t) (i : nat)
    (p c n : MergedKLine.t) : Prop :=
  (1 <= i)%nat ∧ (i + 2 <= length klines)%nat ∧
  klines !! (i - 1)%nat = Some p ∧ klines !! i = Some c ∧ klines !! (i + 1)%nat = Some n.

(** The bars a fractal occupies: [range(max(0, index - 1), index + 2)]. *)
Definition occupies (f : Fractal.t) (k : Z) : Prop :=
  Z.max 0 (Fractal.index f - 1) <= k <= Fractal.index f + 1.

(** ** The valid-end search *)

(** A candidate the search records: of the target kind and independent of
    the start. *)
Definition valid_end (objs : store) (start_fractal : ref) (target_type : fractal_type)
    (c : ref) : Prop :=
  Fractal.type (objs c) = target_type ∧
  KLineVisualizer._has_independent_klines_between (objs start_fractal) (objs c) = true.

#[global] Instance valid_end_dec objs start_fractal target_type c :
  Decision (valid_end objs start_fractal target_type c).
Proof. unfold valid_end. apply _. Defined.

Definition same_kind_as_start (objs : store) (start_fractal : ref) (c : ref) : Prop :=
  Fractal.type (objs c) = Fractal.type (objs start_fractal).

#[global] Instance same_kind_as_start_dec objs start_fractal c :
  Decision (same_kind_as_start objs start_fractal c).
Proof. unfold same_kind_as_start. apply _. Defined.

(** The candidates the scan reads before it stops: all of them when none is
    valid; otherwise those up to the first valid one, [v0], and on to, but
    not including, the first fractal of the start's kind after it. *)
Definition scanned (objs : store) (start_fractal : ref) (target_type : fractal_type)
    (candidates read : list ref) : Prop :=
  (Forall (fun c => ¬ valid_end objs start_fractal target_type c) candidates
   ∧ read = candidates) ∨
  ∃ pre v0 mid rest,
    candidates = pre ++ v0 :: mid ++ rest ∧
    Forall (fun c => ¬ valid_end objs start_fractal target_type c) pre ∧
    valid_end objs start_fractal target_type v0 ∧
    Forall (fun c => ¬ same_kind_as_start objs start_fractal c) mid ∧
    (rest = [] ∨ ∃ c rest', rest = c :: rest' ∧ same_kind_as_start objs start_fractal c) ∧
    read = pre ++ v0 :: mid.

(** ** Pens *)

(** What the specification asks of one pen. *)
Definition pen_ok (objs : store) (p : Pen.t) : Prop :=
  let s := objs (Pen.start_fractal p) in
  let e := objs (Pen.end_fractal p) in
  Fractal.type s ≠ Fractal.type e ∧
  (Pen.direction p = up ↔ Fractal.price s < Fractal.price e) ∧
  (Pen.direction p = down ↔ Fractal.price e <= Fractal.price s) ∧
  2 < Z.abs (Fractal.index s - Fractal.index e).

(** Fractals at bars 1 (a top), 3, 4, 6, 8, 10 and 20: seen from the first,
    the bottom at 3 is too close, the top at 4 is passed over, the bottoms
    at 6 and 8 are valid ends, the top at 10 stops the scan before the
    bottom at 20. *)
Definition sample_fractals : list Fractal.t :=
  let bar := MergedKLine.mk 0 0 9 7 1 in
  [Fractal.new 1 top bar; Fractal.new 3 bottom bar; Fractal.new 4 top bar;
   Fractal.new 6 bottom bar; Fractal.new 8 bottom bar; Fractal.new 10 top bar;
   Fractal.new 20 bottom bar].

(** Two fractals far enough apart to be joined by a pen. *)
Definition two_fractals : list Fractal.t :=
  let bar := MergedKLine.mk 0 0 9 7 1 in
  [Fractal.new 1 top bar; Fractal.new 5 bottom bar].

(** * More of the source *)

(** ** chan_kline_tool.py: the state the tool keeps and its checks *)

Module ChanKLineTool.
Record t := mk {
  original_klines : list KLine.t;
  merged_klines : list MergedKLine.t
}.

(** [validate_data]: the value returned. [invalid_count] is the counter
    of the loop. *)
Definition validate_data (self : t) : bool :=
  match original_klines self with
  | [] => false
  | _ =>
      let invalid_count :=
        fold_left (fun invalid_count kline =>
                     if KLine.high kline <? KLine.low kline
                     then invalid_count + 1 else invalid_count)
                  (original_klines self) 0 in
      invalid_count =? 0
  end.

(** [merge_klines]: the flag returned and the tool afterwards. *)
Definition merge_klines (self : t) : bool * t :=
  match original_klines self with
  | [] => (false, self)
  | _ =>
      (true,
       {| original_klines := original_klines self;
          merged_klines := KLineMerger.merge_klines (original_klines self) |})
  end.
End ChanKLineTool.

(** ** kline_visualizer.py: the attributes [calculate_pens] leaves behind *)

Module Visualizer.
(** [self.fractals], [self.pens] and [self.used_fractals]; the last is
    absent until a run of [calculate_pens] sets it. *)
Record t := mk {
  fractals : list ref;
  pens : list Pen.t;
  used_fractals : option (gset ref)
}.

Section WithStore.
Variable objs : store.

(** The second loop of [calculate_pens] once more, this time with the set
    [used_fractals] it ends with. *)
Fixpoint build_pens_used (fuel : nat) (fractals : list ref) (pens : list Pen.t)
    (used_fractals : gset ref) (current_fractal : ref)
    : option (except (list Pen.t * gset ref)) :=
  match fuel with
  | O => None
  | S fuel =>
      match KLineVisualizer.list_index current_fractal fractals with
      | None => Some (Raise ValueError)
      | Some current_index =>
          let target_type := KLineVisualizer.target_of objs current_fractal in
          match KLineVisualizer._find_valid_pen_end objs current_fractal fractals
                  current_index target_type with
          | Some valid_end_fractal =>
              let pen := Pen.new objs current_fractal valid_end_fractal in
              build_pens_used fuel fractals (pens ++ [pen])
                ({[valid_end_fractal]} ∪ ({[current_fractal]} ∪ used_fractals))
                valid_end_fractal
          | None =>
              let remaining_fractals :=
                filter (fun f => f ∉ used_fractals) (drop (S current_index) fractals) in
              match list_find (fun remaining_fractal =>
                                 Fractal.type (objs remaining_fractal)
                                 ≠ Fractal.type (objs current_fractal))
                              remaining_fractals with
              | Some (_, new_start_fractal) =>
                  build_pens_used fuel fractals pens used_fractals new_start_fractal
              | None => Some (Return (pens, used_fractals))
              end
          end
      end
  end.

(** The method [calculate_pens(fractals)] on the object [self]: the list
    returned and the object afterwards. [None] as argument stands for
    [self.fractals]. With fewer than 2 fractals the method returns before
    it assigns anything. *)
Definition calculate_pens (fuel : nat) (self : t) (arg : option (list ref))
    : option (except (list Pen.t * t)) :=
  let fractals := match arg with Some l => l | None => fractals self end in
  if bool_decide (length fractals < 2)%nat then Some (Return ([], self))
  else
    match KLineVisualizer.find_first_start objs fractals fractals 0 with
    | None =>
        Some (Return ([], {| fractals := Visualizer.fractals self;
                             pens := [];
                             used_fractals := Some ∅ |}))
    | Some current_fractal =>
        match build_pens_used fuel fractals [] ∅ current_fractal with
        | None => None
        | Some (Raise e) => Some (Raise e)
        | Some (Return (pens, used)) =>
            Some (Return (pens, {| fractals := Visualizer.fractals self;
                                   pens := pens;
                                   used_fractals := Some used |}))
        end
    end.

(** [_plot_fractals]: the fractals that get a marker, in order.
    [getattr(self, 'used_fractals', set())] is the empty set when the
    attribute is absent. *)
Definition marked_fractals (self : t) (fractals : list ref) : list ref :=
  let used_fractals := default ∅ (used_fractals self) in
  filter (fun fractal => fractal ∈ used_fractals) fractals.

(** [get_fractal_summary]: the dictionary, as the list of its items in
    insertion order. *)
Definition get_fractal_summary (self : t) : list (string * Z) :=
  match fractals self with
  | [] => []
  | _ =>
      let top_count :=
        Z.of_nat (length (filter (fun f => Fractal.type (objs f) = top) (fractals self))) in
      let bottom_count :=
        Z.of_nat (length (filter (fun f => Fractal.type (objs f) = bottom) (fractals self))) in
      [("总分型数"%string, Z.of_nat (length (fractals self)));
       ("顶分型数"%string, top_count);
       ("底分型数"%string, bottom_count);
       ("笔的数量"%string, Z.of_nat (length (pens self)))]
  end.
End WithStore.
End Visualizer.

(** ** Vocabulary of the further properties *)

(** [R] holds between every two neighbours of [l]. *)
Definition adjacent {A} (R : A → A → Prop) (l : list A) : Prop :=
  ∀ i a b, l !! i = Some a → l !! S i = Some b → R a b.

(** The compressed bar [m] stands for the run [g] of consecutive raw bars:
    it spans the run in time, counts its bars, and takes its high and its
    low from bars of the run. *)
Definition group_of (g : list KLine.t) (m : MergedKLine.t) : Prop :=
  ∃ first_k last_k,
    head g = Some first_k ∧ last g = Some last_k ∧
    MergedKLine.start_time m = KLine.timestamp first_k ∧
    MergedKLine.end_time m = KLine.timestamp last_k ∧
    MergedKLine.original_count m = Z.of_nat (length g) ∧
    (∃ r, r ∈ g ∧ MergedKLine.high m = KLine.high r) ∧
    (∃ r, r ∈ g ∧ MergedKLine.low m = KLine.low r).

(** The raw bar [a] contains the raw bar [b] that follows it. *)
Definition raw_contains (a b : KLine.t) : Prop :=
  contains (KLineMerger._kline_to_merged a) (KLineMerger._kline_to_merged b).

(** In time, [a] ends before [b] starts. *)
Definition before (a b : MergedKLine.t) : Prop :=
  MergedKLine.end_time a < MergedKLine.start_time b.

(** A compressed bar does not end before it starts. *)
Definition spans (m : MergedKLine.t) : Prop :=
  MergedKLine.start_time m <= MergedKLine.end_time m.



(** The pens run forward through the fractal list from position [lo] on:
    each pen starts at or after [lo], ends strictly later, and the next
    pen starts at or after that end. *)
Fixpoint pen_chain (fractals : list ref) (lo : nat) (pens : list Pen.t) : Prop :=
  match pens with
  | [] => True
  | p :: pens =>
      ∃ s e, (lo <= s)%nat ∧ (s < e)%nat ∧
             fractals !! s = Some (Pen.start_fractal p) ∧
             fractals !! e = Some (Pen.end_fractal p) ∧
             pen_chain fractals e pens
  end.

(** The fractals some pen starts or ends at. *)
Definition endpoints (pens : list Pen.t) : gset ref :=
  list_to_set (Pen.start_fractal <$> pens) ∪ list_to_set (Pen.end_fractal <$> pens).

(** Every fractal of [used] lies at or before position [ci] of the list. *)
Definition used_behind (fractals : list ref) (ci : nat) (used : gset ref) : Prop :=
  ∀ f j, f ∈ used → fractals !! j = Some f → (j <= ci)%nat.

(** A run seen through its pens only: the pair of pens and used set cut
    down to the pens. *)
Definition pens_only (r : except (list Pen.t * gset ref)) : except (list Pen.t) :=
  match r with
  | Return (pens, _) => Return pens
  | Raise e => Raise e
  end.

(** What is left of inclusion between a bar [a] and its successor [b] in
    the output: [a] can contain [b] only if the two have the same high and
    [b] stands for at least two raw bars. *)
Definition contains_only_merged (a b : MergedKLine.t) : Prop :=
  contains a b →
  MergedKLine.high a = MergedKLine.high b ∧ 2 <= MergedKLine.original_count b.

(** How the bar being built, [cur], stands against the last finalized bar
    [prev]: above it in high; level with it in high and either below it in
    low or already merged; or below it in both. *)
Definition stands_against (prev cur : MergedKLine.t) : Prop :=
  MergedKLine.high prev < MergedKLine.high cur
  ∨ (MergedKLine.high cur = MergedKLine.high prev
     ∧ (MergedKLine.low cur < MergedKLine.low prev
        ∨ 2 <= MergedKLine.original_count cur))
  ∨ (MergedKLine.high cur < MergedKLine.high prev
     ∧ MergedKLine.low cur < MergedKLine.low prev).

(** * Prices that can be NaN

    A Python float is a number or NaN, and every comparison with NaN
    answers False. [KLine.__post_init__] and [validate_data] reject a bar
    only when [high < low] answers True, so a bar with a NaN price passes
    both. The modules below are the same source functions over such
    prices; on prices that are numbers they agree with the modules
    above. *)

Module Float.
(** A number (in ticks, as above) or NaN. *)
Inductive t := nan | num (z : Z).

(** [a < b], [a <= b], [a > b], [a >= b]. *)
Definition ltb (a b : t) : bool :=
  match a, b with
  | num x, num y => x <? y
  | _, _ => false
  end.

Definition leb (a b : t) : bool :=
  match a, b with
  | num x, num y => x <=? y
  | _, _ => false
  end.

Definition gtb (a b : t) : bool :=
  match a, b with
  | num x, num y => y <? x
  | _, _ => false
  end.

Definition geb (a b : t) : bool :=
  match a, b with
  | num x, num y => y <=? x
  | _, _ => false
  end.

(** [max(a, b)] keeps [a] unless [b > a]; [min(a, b)] keeps [a] unless
    [b < a]. *)
Definition max (a b : t) : t := if gtb b a then b else a.
Definition min (a b : t) : t := if ltb b a then b else a.
End Float.

Module OverFloat.

Module KLine.
Record t := mk { timestamp : Z; high : Float.t; low : Float.t }.

(** The dataclass constructor followed by [__post_init__]. *)
Definition new (timestamp : Z) (high low : Float.t) : except t :=
  if Float.ltb high low then Raise ValueError else Return (mk timestamp high low).
End KLine.

Module MergedKLine.
Record t := mk {
  start_time : Z;
  end_time : Z;
  high : Float.t;
  low : Float.t;
  original_count : Z
}.
End MergedKLine.

Module KLineMerger.
Import MergedKLine.

Definition _has_inclusion_relationship (k1 k2 : MergedKLine.t) : bool * inclusion :=
  let k1_contains_k2 := Float.geb (high k1) (high k2) && Float.leb (low k1) (low k2) in
  let k2_contains_k1 := Float.geb (high k2) (high k1) && Float.leb (low k2) (low k1) in
  if k1_contains_k2 then (true, incl_k1_contains_k2)
  else if k2_contains_k1 then (true, incl_k2_contains_k1)
  else (false, incl_none).

Definition _merge_inclusion_relationship
    (k1 k2 : MergedKLine.t) (trend_direction : trend) : MergedKLine.t :=
  let '(merged_high, merged_low) :=
    match trend_direction with
    | up => (Float.max (high k1) (high k2), Float.max (low k1) (low k2))
    | down => (Float.min (high k1) (high k2), Float.min (low k1) (low k2))
    end in
  {| start_time := start_time k1;
     end_time := end_time k2;
     high := merged_high;
     low := merged_low;
     original_count := original_count k1 + original_count k2 |}.

Definition _determine_trend_direction
    (current_k next_k : MergedKLine.t) (merged_klines : list MergedKLine.t) : trend :=
  match last merged_klines with
  | None => up
  | Some prev_k =>
      if Float.geb (high current_k) (high prev_k) then up
      else if Float.leb (low current_k) (low prev_k) then down
      else if Float.gtb (high current_k) (high prev_k) then up
      else down
  end.

Definition _kline_to_merged (kline : KLine.t) : MergedKLine.t :=
  {| start_time := KLine.timestamp kline;
     end_time := KLine.timestamp kline;
     high := KLine.high kline;
     low := KLine.low kline;
     original_count := 1 |}.

Definition merge_state : Type := list MergedKLine.t * MergedKLine.t.

(** One iteration of [for i in range(1, len(klines))]. *)
Definition merge_step (st : merge_state) (kline : KLine.t) : merge_state :=
  let '(merged_result, current_merged) := st in
  let next_kline := _kline_to_merged kline in
  match _has_inclusion_relationship current_merged next_kline with
  | (true, incl_k1_contains_k2) =>
      let trend_direction :=
        _determine_trend_direction current_merged next_kline merged_result in
      (merged_result,
       _merge_inclusion_relationship current_merged next_kline trend_direction)
  | (true, _) => (merged_result ++ [current_merged], next_kline)
  | (false, _) => (merged_result ++ [current_merged], next_kline)
  end.

Definition merge_klines (klines : list KLine.t) : list MergedKLine.t :=
  match klines with
  | [] => []
  | [k] => [_kline_to_merged k]
  | k0 :: rest =>
      let '(merged_result, current_merged) :=
        fold_left merge_step rest ([], _kline_to_merged k0) in
      merged_result ++ [current_merged]
  end.
End KLineMerger.

Module ChanKLineTool.
Record t := mk {
  original_klines : list KLine.t;
  merged_klines : list MergedKLine.t
}.

(** [validate_data]: the value returned. *)
Definition validate_data (self : t) : bool :=
  match original_klines self with
  | [] => false
  | _ =>
      let invalid_count :=
        fold_left (fun invalid_count kline =>
                     if Float.ltb (KLine.high kline) (KLine.low kline)
                     then invalid_count + 1 else invalid_count)
                  (original_klines self) 0 in
      invalid_count =? 0
  end.
End ChanKLineTool.

End OverFloat.

(** ** Vocabulary of the properties over such prices *)

(** A bar whose prices are numbers, read as a bar of the modules that can
    hold NaN. *)
Definition of_KLine (k : KLine.t) : OverFloat.KLine.t :=
  OverFloat.KLine.mk (KLine.timestamp k)
    (Float.num (KLine.high k)) (Float.num (KLine.low k)).

Definition of_MergedKLine (m : MergedKLine.t) : OverFloat.MergedKLine.t :=
  OverFloat.MergedKLine.mk (MergedKLine.start_time m) (MergedKLine.end_time m)
    (Float.num (MergedKLine.high m)) (Float.num (MergedKLine.low m))
    (MergedKLine.original_count m).

Definition of_merge_state (st : KLineMerger.merge_state)
    : OverFloat.KLineMerger.merge_state :=
  (of_MergedKLine <$> st.1, of_MergedKLine st.2).

(** [high >= low] answers True: a valid raw bar; neither price is NaN. *)
Definition float_valid_raw (k : OverFloat.KLine.t) : Prop :=
  Float.geb (OverFloat.KLine.high k) (OverFloat.KLine.low k) = true.

(** [high < low] answers False: what the constructor and [validate_data]
    let through. *)
Definition accepted (k : OverFloat.KLine.t) : Prop :=
  Float.ltb (OverFloat.KLine.high k) (OverFloat.KLine.low k) = false.

(** One of the two comparisons of the trend rule answers True for the bar
    being built against the last finalized bar. *)
Definition comparison_fires (st : OverFloat.KLineMerger.merge_state) : Prop :=
  ∀ prev_k, last st.1 = Some prev_k →
    Float.geb (OverFloat.MergedKLine.high st.2) (OverFloat.MergedKLine.high prev_k) = true
    ∨ Float.leb (OverFloat.MergedKLine.low st.2) (OverFloat.MergedKLine.low prev_k) = true.

(** The bar being built does not lie strictly inside the last finalized
    bar: [current.high < previous.high] or [current.low > previous.low]
    answers False. *)
Definition not_inside_previous (st : OverFloat.KLineMerger.merge_state) : Prop :=
  ∀ prev_k, last st.1 = Some prev_k →
    Float.ltb (OverFloat.MergedKLine.high st.2) (OverFloat.MergedKLine.high prev_k) = false
    ∨ Float.gtb (OverFloat.MergedKLine.low st.2) (OverFloat.MergedKLine.low prev_k) = false.

(** [sum(1 for f in fractals if f.type == kind)], one fractal at a time. *)
Fixpoint kind_count (objs : store) (kind : fractal_type) (fractals : list ref) : Z :=
  match fractals with
  | [] => 0
  | f :: fractals =>
      (if decide (Fractal.type (objs f) = kind) then 1 else 0)
      + kind_count objs kind fractals
  end.

(** * Properties *)

(** ** Raw bars *)

(** C9: constructing a raw bar raises the invalid-bar error exactly when
    [high < low]; for every other pair the bar is built with the fields
    given. *)
Theorem KLine_new_raises_iff (timestamp high low : Z) :
  (KLine.new timestamp high low = Raise ValueError ↔ high < low) ∧
  (KLine.new timestamp high low = Return (KLine.mk timestamp high low) ↔ low <= high).
Proof.
  unfold KLine.new.
  destruct (Z.ltb_spec high low); split; split; intros; try lia; congruence.
Qed.

(** ** The merge engine *)

Section Merge.
Import MergedKLine KLineMerger.

Lemma total_merged_count_app l1 l2 :
  total_merged_count (l1 ++ l2) = total_merged_count l1 + total_merged_count l2.
Proof. induction l1 as [|a l1 IH]; simpl; lia. Qed.

Lemma has_inclusion_k1 k1 k2 :
  _has_inclusion_relationship k1 k2 = (true, incl_k1_contains_k2) ↔ contains k1 k2.
Proof.
  unfold _has_inclusion_relationship, contains.
  destruct (Z.leb_spec (high k2) (high k1)), (Z.leb_spec (low k1) (low k2)); simpl;
    repeat case_match; split; intros; try lia; congruence.
Qed.

(** What one iteration does, by the two cases the loop distinguishes. *)
Lemma merge_step_cases merged_result current_merged kline :
  let next_kline := _kline_to_merged kline in
  (contains current_merged next_kline ∧
   merge_step (merged_result, current_merged) kline
   = (merged_result,
      _merge_inclusion_relationship current_merged next_kline
        (_determine_trend_direction current_merged next_kline merged_result)))
  ∨ (¬ contains current_merged next_kline ∧
     merge_step (merged_result, current_merged) kline
     = (merged_result ++ [current_merged], next_kline)).
Proof.
  intros next_kline. unfold merge_step. fold next_kline.
  destruct (_has_inclusion_relationship current_merged next_kline) as [b i] eqn:E.
  destruct (decide (contains current_merged next_kline)) as [Hc|Hc].
  - left. apply has_inclusion_k1 in Hc as Hc'. rewrite Hc' in E.
    injection E as <- <-. done.
  - right. split; [done|].
    destruct b, i; try done. apply has_inclusion_k1 in E. done.
Qed.

(** Loop invariants are proved over the bars consumed so far, [pre]. *)
Lemma merge_fold_ind (P : list KLine.t → merge_state → Prop) :
  (∀ pre st k, P pre st → P (pre ++ [k]) (merge_step st k)) →
  ∀ rest pre st, P pre st → P (pre ++ rest) (fold_left merge_step rest st).
Proof.
  intros Hstep rest. induction rest as [|k rest IH]; intros pre st HP; simpl.
  - by rewrite app_nil_r.
  - rewrite (cons_middle k pre rest), app_assoc. apply IH, Hstep, HP.
Qed.

(** [merge_klines] is the loop run from the first bar, then the last
    [current_merged] appended; the one-bar shortcut agrees with it. *)
Lemma merge_klines_fold k0 rest :
  merge_klines (k0 :: rest)
  = (fold_left merge_step rest ([], _kline_to_merged k0)).1
    ++ [(fold_left merge_step rest ([], _kline_to_merged k0)).2].
Proof.
  destruct rest as [|k1 rest]; [done|].
  unfold merge_klines. by destruct (fold_left _ _ _).
Qed.

Lemma merge_inclusion_fields k1 k2 t :
  let m := _merge_inclusion_relationship k1 k2 t in
  start_time m = start_time k1 ∧ end_time m = end_time k2 ∧
  original_count m = original_count k1 + original_count k2 ∧
  high m = match t with
           | up => Z.max (high k1) (high k2)
           | down => Z.min (high k1) (high k2)
           end ∧
  low m = match t with
          | up => Z.max (low k1) (low k2)
          | down => Z.min (low k1) (low k2)
          end.
Proof. by destruct t. Qed.

Lemma merge_inclusion_well_formed k1 k2 t :
  contains k1 k2 → well_formed k1 → well_formed k2 → end_time k1 <= end_time k2 →
  well_formed (_merge_inclusion_relationship k1 k2 t).
Proof.
  unfold contains, well_formed, _merge_inclusion_relationship.
  intros [??] (?&?&?) (?&?&?) ?. destruct t; simpl; lia.
Qed.

Lemma kline_to_merged_well_formed k :
  valid_raw k → well_formed (_kline_to_merged k).
Proof. unfold valid_raw, well_formed; simpl. lia. Qed.

Lemma counts_inv_init k0 : counts_inv k0 [] ([], _kline_to_merged k0).
Proof.
  intros Hv _. simpl. split; [constructor|]. split; [|split; [|done]].
  - apply kline_to_merged_well_formed. by inv Hv.
  - exists k0. split; reflexivity.
Qed.

Lemma counts_inv_step k0 pre st k :
  counts_inv k0 pre st → counts_inv k0 (pre ++ [k]) (merge_step st k).
Proof.
  intros IH Hv Hs. destruct st as [res cur].
  rewrite app_comm_cons in Hv, Hs |- *. rewrite fmap_app in Hs.
  apply Forall_app in Hv as [Hv Hk]. rewrite Forall_singleton in Hk.
  apply StronglySorted_app in Hs as (Hle & Hs & _).
  destruct (IH Hv Hs) as (Hres & Hcur & (kl & Hlast & Hend) & Hsum).
  cbn [fst snd] in *.
  assert (end_time cur <= KLine.timestamp k) as Hek.
  { rewrite Hend. apply Hle; [|set_solver].
    apply list_elem_of_fmap_2, last_Some_elem_of, Hlast. }
  assert (last ((k0 :: pre) ++ [k]) = Some k) as Hl by apply last_snoc.
  rewrite length_app, Nat2Z.inj_add. change (Z.of_nat (length [k])) with 1.
  pose proof (kline_to_merged_well_formed k Hk) as Hwk.
  destruct (merge_step_cases res cur k) as [[Hc ->]|[Hc ->]]; cbn [fst snd].
  - destruct (merge_inclusion_fields cur (_kline_to_merged k)
                (_determine_trend_direction cur (_kline_to_merged k) res))
      as (_ & He & Hn & _).
    split; [done|]. split; [|split].
    + apply merge_inclusion_well_formed; done.
    + exists k. split; [done|]. rewrite He. reflexivity.
    + rewrite Hn. cbn [_kline_to_merged original_count]. lia.
  - split; [|split; [done|split]].
    + apply Forall_app. split; [done|]. by apply Forall_singleton.
    + exists k. split; [done|reflexivity].
    + rewrite total_merged_count_app.
      cbn [total_merged_count foldr _kline_to_merged original_count]. lia.
Qed.

(** C3: on valid bars in non-decreasing time order, every compressed bar has
    [high >= low], [end_time >= start_time] and [count >= 1], and the counts
    add up to the number of input bars. *)
Theorem merge_klines_well_formed_and_counts (klines : list KLine.t) :
  Forall valid_raw klines →
  Sorted Z.le (KLine.timestamp <$> klines) →
  Forall well_formed (merge_klines klines) ∧
  total_merged_count (merge_klines klines) = Z.of_nat (length klines).
Proof.
  intros Hv Hs. destruct klines as [|k0 rest]; [by split; [constructor|]|].
  apply (Sorted_StronglySorted _) in Hs.
  rewrite merge_klines_fold.
  pose proof (merge_fold_ind (counts_inv k0) (counts_inv_step k0) rest []
                _ (counts_inv_init k0)) as H.
  destruct (H Hv Hs) as (Hres & Hcur & _ & Hsum). split.
  - apply Forall_app. split; [done|]. by apply Forall_singleton.
  - rewrite total_merged_count_app. simpl in *. lia.
Qed.

Lemma merge_klines_well_formed_and_counts_witness :
  let klines := [KLine.mk 1 10 8; KLine.mk 2 9 8; KLine.mk 2 12 9; KLine.mk 5 11 10] in
  merge_klines klines
  = [MergedKLine.mk 1 2 10 8 2; MergedKLine.mk 2 5 12 10 2] ∧
  Forall well_formed (merge_klines klines) ∧
  total_merged_count (merge_klines klines) = 4.
Proof.
  intros klines. split; [reflexivity|].
  apply (merge_klines_well_formed_and_counts klines).
  - unfold valid_raw. repeat constructor; simpl; lia.
  - repeat constructor; simpl; lia.
Defined.
End Merge.

Section Trend.
Import MergedKLine KLineMerger.

(** With prices that are numbers the fallback is never reached in a run
    of [merge_klines]: the bar being built always satisfies one of the two
    comparisons against the last finalized bar. *)
Lemma trend_decided_step st k : trend_decided st → trend_decided (merge_step st k).
Proof.
  destruct st as [res cur]. unfold trend_decided. cbn [fst snd]. intros IH.
  destruct (merge_step_cases res cur k) as [[Hc ->]|[Hc ->]]; cbn [fst snd].
  - intros prev_k Hlast. specialize (IH _ Hlast).
    unfold _determine_trend_direction. rewrite Hlast.
    destruct (Z.leb_spec (high prev_k) (high cur)).
    { left. simpl. lia. }
    destruct (Z.leb_spec (low cur) (low prev_k)); [|lia].
    right. simpl. lia.
  - intros prev_k. rewrite last_snoc. intros [= <-].
    unfold contains in Hc. lia.
Qed.

Lemma merge_loop_trend_decided k0 rest :
  trend_decided (fold_left merge_step rest ([], _kline_to_merged k0)).
Proof.
  apply (merge_fold_ind (fun _ => trend_decided)
           (fun _ st k => trend_decided_step st k) rest []).
  intros prev_k. cbn [fst]. by rewrite last_nil.
Qed.
End Trend.

Section TrendFallback.
Import OverFloat.MergedKLine OverFloat.KLineMerger.

(** C2, as the code has it: in a merge step where the current bar contains
    the candidate and a bar has been finalized, if neither comparison of
    the trend rule answers True ([current.high >= previous.high] and
    [current.low <= previous.low], with previous the last finalized bar),
    the trend used for the merge is [down]: the fallback compares the
    highs once more, and that comparison cannot answer True either. *)
Theorem trend_fallback_is_down
    (merged_result : list OverFloat.MergedKLine.t)
    (current_merged prev_k : OverFloat.MergedKLine.t) (kline : OverFloat.KLine.t) :
  let next_kline := _kline_to_merged kline in
  _has_inclusion_relationship current_merged next_kline = (true, incl_k1_contains_k2) →
  last merged_result = Some prev_k →
  Float.geb (high current_merged) (high prev_k) = false →
  Float.leb (low current_merged) (low prev_k) = false →
  _determine_trend_direction current_merged next_kline merged_result = down ∧
  merge_step (merged_result, current_merged) kline
  = (merged_result, _merge_inclusion_relationship current_merged next_kline down).
Proof.
  intros next_kline Hincl Hlast Hh Hl.
  assert (_determine_trend_direction current_merged next_kline merged_result = down)
    as Hd.
  { unfold _determine_trend_direction. rewrite Hlast, Hh, Hl.
    destruct (high current_merged) as [|x], (high prev_k) as [|y]; try done.
    simpl in *. destruct (Z.ltb_spec y x); [|done].
    apply Z.leb_gt in Hh. lia. }
  split; [done|].
  unfold merge_step. fold next_kline. by rewrite Hincl, Hd.
Qed.

(** The state a run on the bars [(10, nan)], [(9, 6)], [(8, 7)] is in when
    it reads the third bar. *)
Lemma trend_fallback_is_down_witness :
  let k0 := OverFloat.KLine.mk 1 (Float.num 10) Float.nan in
  let k1 := OverFloat.KLine.mk 2 (Float.num 9) (Float.num 6) in
  let k2 := OverFloat.KLine.mk 3 (Float.num 8) (Float.num 7) in
  let st := fold_left merge_step [k1] ([], _kline_to_merged k0) in
  _determine_trend_direction st.2 (_kline_to_merged k2) st.1 = down ∧
  merge_step (st.1, st.2) k2
  = (st.1, _merge_inclusion_relationship st.2 (_kline_to_merged k2) down).
Proof.
  intros k0 k1 k2 st.
  apply (trend_fallback_is_down st.1 st.2 (_kline_to_merged k0) k2).
  - reflexivity.
  - reflexivity.
  - reflexivity.
  - reflexivity.
Defined.

(** A default to [up] when neither comparison fires does not hold. The
    constructor accepts the three bars [(10, nan)], [(9, 6)], [(8, 7)].
    The run finalizes the first; the second contains the third, neither
    [9 >= 10] nor [6 <= nan] answers True, and the two are merged with
    [down] (minima) to [(8, 6)], not with [up] to [(9, 7)]. *)
Lemma trend_fallback_reached_not_up :
  let k0 := OverFloat.KLine.mk 1 (Float.num 10) Float.nan in
  let k1 := OverFloat.KLine.mk 2 (Float.num 9) (Float.num 6) in
  let k2 := OverFloat.KLine.mk 3 (Float.num 8) (Float.num 7) in
  let prev_k := _kline_to_merged k0 in
  let current_k := _kline_to_merged k1 in
  OverFloat.KLine.new 1 (Float.num 10) Float.nan = Return k0 ∧
  OverFloat.KLine.new 2 (Float.num 9) (Float.num 6) = Return k1 ∧
  OverFloat.KLine.new 3 (Float.num 8) (Float.num 7) = Return k2 ∧
  fold_left merge_step [k1] ([], _kline_to_merged k0) = ([prev_k], current_k) ∧
  _has_inclusion_relationship current_k (_kline_to_merged k2)
  = (true, incl_k1_contains_k2) ∧
  last [prev_k] = Some prev_k ∧
  Float.geb (high current_k) (high prev_k) = false ∧
  Float.leb (low current_k) (low prev_k) = false ∧
  _determine_trend_direction current_k (_kline_to_merged k2) [prev_k] = down ∧
  merge_klines [k0; k1; k2]
  = [prev_k; OverFloat.MergedKLine.mk 2 3 (Float.num 8) (Float.num 6) 2] ∧
  _merge_inclusion_relationship current_k (_kline_to_merged k2) up
  = OverFloat.MergedKLine.mk 2 3 (Float.num 9) (Float.num 7) 2.
Proof. vm_compute. repeat split. Qed.
End TrendFallback.

Section Inclusion.
Import MergedKLine KLineMerger.

Lemma boundary_inv_init k0 : boundary_inv k0 [] ([], _kline_to_merged k0).
Proof. split; [done|]. intros i a b Ha. cbn [fst] in Ha. by rewrite lookup_nil in Ha. Qed.

Lemma next_raw_snoc klines k out i r :
  next_raw klines out i = Some r → next_raw (klines ++ [k]) out i = Some r.
Proof. unfold next_raw. apply lookup_app_l_Some. Qed.

Lemma boundary_inv_step k0 pre st k :
  boundary_inv k0 pre st → boundary_inv k0 (pre ++ [k]) (merge_step st k).
Proof.
  destruct st as [res cur]. unfold boundary_inv. cbn [fst snd].
  rewrite !app_comm_cons, length_app, Nat2Z.inj_add.
  change (Z.of_nat (length [k])) with 1.
  intros [Hsum IH].
  destruct (merge_step_cases res cur k) as [[Hc ->]|[Hc ->]]; cbn [fst snd].
  - destruct (merge_inclusion_fields cur (_kline_to_merged k)
                (_determine_trend_direction cur (_kline_to_merged k) res))
      as (Hst & _ & Hn & _).
    split; [rewrite Hn; cbn [_kline_to_merged original_count]; lia|].
    intros i a b Ha Hb.
    assert (∃ b', (res ++ [cur]) !! S i = Some b' ∧ start_time b = start_time b')
      as (b' & Hb' & Hsb).
    { apply lookup_lt_Some in Ha as Hi.
      destruct (decide (S i < length res)%nat) as [Hlt|Hge].
      - exists b. rewrite lookup_app_l in Hb |- * by done. done.
      - assert (S i = length res) as Hi' by lia.
        rewrite Hi' in Hb |- *. rewrite list_lookup_middle in Hb |- * by done.
        injection Hb as <-. eauto. }
    destruct (IH i a b' Ha Hb') as (r & Hr & Hs & Hn').
    exists r. split; [by apply next_raw_snoc|]. split; [congruence|done].
  - split; [rewrite total_merged_count_app;
            cbn [total_merged_count foldr _kline_to_merged original_count]; lia|].
    intros i a b Ha Hb.
    apply lookup_lt_Some in Hb as Hi. rewrite !length_app in Hi. simpl in Hi.
    destruct (decide (i < length res)%nat) as [Hlt|Hge].
    + rewrite lookup_app_l in Ha by done.
      rewrite (lookup_app_l (res ++ [cur])) in Hb by (rewrite length_app; simpl; lia).
      destruct (IH i a b Ha Hb) as (r & Hr & Hs & Hn').
      exists r. split; [|done]. apply next_raw_snoc.
      unfold next_raw in *. rewrite take_app_le by lia. done.
    + assert (i = length res) as -> by lia.
      rewrite list_lookup_middle in Ha by done. injection Ha as <-.
      rewrite (list_lookup_middle (res ++ [cur]) [] _ (S (length res))) in Hb
        by (rewrite length_app; simpl; lia).
      injection Hb as <-.
      exists k. split; [|by split].
      unfold next_raw. rewrite take_ge by (rewrite length_app; simpl; lia).
      rewrite total_merged_count_app.
      cbn [total_merged_count foldr]. rewrite Z.add_0_r, Hsum, Nat2Z.id.
      by apply list_lookup_middle.
Qed.

(** C1, as the code has it: a finalized bar does not contain the raw bar
    that comes right after its group, and that raw bar opens the next
    compressed bar. *)
Theorem finalized_bar_excludes_next_raw
    (klines : list KLine.t) (i : nat) (a b : MergedKLine.t) :
  merge_klines klines !! i = Some a →
  merge_klines klines !! S i = Some b →
  ∃ r, next_raw klines (merge_klines klines) i = Some r ∧
       start_time b = KLine.timestamp r ∧
       ¬ contains a (_kline_to_merged r).
Proof.
  destruct klines as [|k0 rest]; [done|].
  rewrite merge_klines_fold.
  pose proof (merge_fold_ind (boundary_inv k0) (boundary_inv_step k0) rest []
                _ (boundary_inv_init k0)) as [_ H].
  destruct (fold_left merge_step rest _) as [res cur]. cbn [fst snd] in *.
  intros Ha Hb. apply lookup_lt_Some in Hb as Hi.
  rewrite length_app in Hi. simpl in Hi.
  rewrite lookup_app_l in Ha by lia.
  destruct (H i a b Ha Hb) as (r & Hr & Hs & Hn).
  exists r. split; [|done]. unfold next_raw in *. by rewrite take_app_le by lia.
Qed.

Lemma finalized_bar_excludes_next_raw_witness :
  let klines := [KLine.mk 1 10 5; KLine.mk 2 10 4; KLine.mk 3 9 6; KLine.mk 4 12 7] in
  merge_klines klines
  = [MergedKLine.mk 1 1 10 5 1; MergedKLine.mk 2 3 10 6 2; MergedKLine.mk 4 4 12 7 1] ∧
  ∃ r, next_raw klines (merge_klines klines) 0 = Some r ∧
       start_time (MergedKLine.mk 2 3 10 6 2) = KLine.timestamp r ∧
       ¬ contains (MergedKLine.mk 1 1 10 5 1) (_kline_to_merged r).
Proof.
  intros klines. split; [reflexivity|].
  apply (finalized_bar_excludes_next_raw klines 0); reflexivity.
Defined.

(** Inclusion elimination between neighbours of the output fails twice
    over: a bar that contains its predecessor is kept next to it, and a
    later merge can move a bar into the range of its predecessor, after
    which a second run of the merge changes the sequence. *)
Lemma merge_output_keeps_inclusions :
  (merge_klines [KLine.mk 1 9 8; KLine.mk 2 10 7]
   = [MergedKLine.mk 1 1 9 8 1; MergedKLine.mk 2 2 10 7 1]
   ∧ contains (MergedKLine.mk 2 2 10 7 1) (MergedKLine.mk 1 1 9 8 1)
   ∧ Forall valid_raw [KLine.mk 1 9 8; KLine.mk 2 10 7]
   ∧ ¬ inclusion_free (merge_klines [KLine.mk 1 9 8; KLine.mk 2 10 7]))
  ∧
  (let klines := [KLine.mk 1 10 5; KLine.mk 2 10 4; KLine.mk 3 9 6] in
   Forall valid_raw klines
   ∧ merge_klines klines = [MergedKLine.mk 1 1 10 5 1; MergedKLine.mk 2 3 10 6 2]
   ∧ contains (MergedKLine.mk 1 1 10 5 1) (MergedKLine.mk 2 3 10 6 2)
   ∧ price_range <$> merge_klines (as_raw <$> merge_klines klines) = [(10, 6)]
   ∧ price_range <$> merge_klines (as_raw <$> merge_klines klines)
     ≠ price_range <$> merge_klines klines).
Proof.
  split.
  - split; [reflexivity|]. split; [unfold contains; simpl; lia|].
    split; [unfold valid_raw; repeat constructor; simpl; lia|].
    intros H. destruct (H 0%nat _ _ eq_refl eq_refl) as [_ Hn].
    apply Hn. unfold contains; simpl; lia.
  - split; [unfold valid_raw; repeat constructor; simpl; lia|].
    split; [reflexivity|]. split; [unfold contains; simpl; lia|].
    split; [reflexivity|]. vm_compute. congruence.
Qed.
End Inclusion.

Section Independence.
Import KLineVisualizer.

Lemma elem_of_range a b k : k ∈ range a b ↔ a <= k < b.
Proof. unfold range. rewrite elem_of_seqZ. lia. Qed.

Lemma occupies_range (f : Fractal.t) k :
  k ∈ (list_to_set (range (Z.max 0 (Fractal.index f - 1)) (Fractal.index f + 2)) : gset Z)
  ↔ occupies f k.
Proof. rewrite elem_of_list_to_set, elem_of_range. unfold occupies. lia. Qed.

Lemma filter_nonempty {A} (P : A → Prop) `{!∀ x, Decision (P x)} (l : list A) :
  (1 <= length (filter P l))%nat ↔ ∃ x, x ∈ l ∧ P x.
Proof.
  split.
  - destruct (filter P l) as [|x l'] eqn:E; simpl; [lia|]. intros _.
    assert (x ∈ filter P l) as Hx by (rewrite E; left).
    apply list_elem_of_filter in Hx as [HP Hx]. by exists x.
  - intros (x & Hx & HP).
    assert (x ∈ filter P l) as Hf by (apply list_elem_of_filter; done).
    destruct (filter P l); [by apply not_elem_of_nil in Hf|simpl; lia].
Qed.

(** The predicate unfolded: the loop and the two sets say that some bar
    strictly between the two fractals is occupied by neither. *)
Lemma has_independent_klines_between_unfold (fractal1 fractal2 : Fractal.t) :
  let lo := Z.min (Fractal.index fractal1) (Fractal.index fractal2) in
  let hi := Z.max (Fractal.index fractal1) (Fractal.index fractal2) in
  _has_independent_klines_between fractal1 fractal2 = true ↔
  2 < hi - lo ∧ ∃ k, lo < k < hi ∧ ¬ occupies fractal1 k ∧ ¬ occupies fractal2 k.
Proof.
  intros lo hi. unfold _has_independent_klines_between. fold lo hi.
  destruct (Z.leb_spec (hi - lo) 2) as [Hd|Hd].
  { split; [done|lia]. }
  rewrite bool_decide_eq_true, filter_nonempty.
  split.
  - intros (k & Hk & H1 & H2). split; [done|]. exists k.
    rewrite elem_of_range in Hk. rewrite occupies_range in H1, H2.
    split; [lia|done].
  - intros (_ & k & Hk & H1 & H2). exists k.
    rewrite elem_of_range, !occupies_range. split; [lia|done].
Qed.

(** C6: the independence predicate is false when the indices are at most
    2 apart; otherwise it holds iff some index strictly between them lies
    outside both occupied ranges [index - 1, index + 1], cut off below 0. *)
Theorem has_independent_klines_between_spec (f1 f2 : Fractal.t) :
  let lo := Z.min (Fractal.index f1) (Fractal.index f2) in
  let hi := Z.max (Fractal.index f1) (Fractal.index f2) in
  (hi - lo <= 2 → _has_independent_klines_between f1 f2 = false) ∧
  (2 < hi - lo →
   (_has_independent_klines_between f1 f2 = true ↔
    ∃ k, lo < k < hi ∧ ¬ occupies f1 k ∧ ¬ occupies f2 k)).
Proof.
  intros lo hi.
  pose proof (has_independent_klines_between_unfold f1 f2) as H.
  cbv zeta in H. fold lo hi in H. split.
  - intros Hd. apply not_true_is_false. rewrite H. lia.
  - intros Hd. rewrite H. split; [by intros [_ ?]|by split].
Qed.

Lemma has_independent_klines_between_spec_witness :
  let bar := MergedKLine.mk 0 0 9 7 1 in
  (_has_independent_klines_between (Fractal.new 1 top bar) (Fractal.new 3 bottom bar)
   = false) ∧
  (_has_independent_klines_between (Fractal.new 1 top bar) (Fractal.new 5 bottom bar)
   = true ↔
   ∃ k, 1 < k < 5 ∧ ¬ occupies (Fractal.new 1 top bar) k
        ∧ ¬ occupies (Fractal.new 5 bottom bar) k).
Proof.
  intros bar. split.
  - apply (has_independent_klines_between_spec
             (Fractal.new 1 top bar) (Fractal.new 3 bottom bar)).
    simpl. lia.
  - apply (has_independent_klines_between_spec
             (Fractal.new 1 top bar) (Fractal.new 5 bottom bar)).
    simpl. lia.
Defined.

(** C10: for fractals at non-negative indices (every index the detector
    produces is at least 1) the predicate is a distance test. *)
Theorem has_independent_klines_between_distance (f1 f2 : Fractal.t) :
  0 <= Fractal.index f1 → 0 <= Fractal.index f2 →
  (_has_independent_klines_between f1 f2 = true
   ↔ 4 <= Z.abs (Fractal.index f1 - Fractal.index f2)).
Proof.
  intros H1 H2. rewrite has_independent_klines_between_unfold.
  unfold occupies. split.
  - intros (Hd & k & Hk & Hn1 & Hn2). lia.
  - intros Hd. split; [lia|].
    exists (Z.min (Fractal.index f1) (Fractal.index f2) + 2). lia.
Qed.

Lemma has_independent_klines_between_distance_witness :
  let bar := MergedKLine.mk 0 0 9 7 1 in
  _has_independent_klines_between (Fractal.new 0 top bar) (Fractal.new 4 bottom bar)
  = true ↔ 4 <= Z.abs (0 - 4).
Proof.
  intros bar.
  apply (has_independent_klines_between_distance
           (Fractal.new 0 top bar) (Fractal.new 4 bottom bar)); simpl; lia.
Defined.

(** Below 0 the cut-off empties an occupied range, and two fractals only
    3 apart count as independent: the distance test needs the indices to
    be non-negative. *)
Lemma has_independent_klines_between_negative :
  let bar := MergedKLine.mk 0 0 9 7 1 in
  _has_independent_klines_between (Fractal.new (-5) top bar) (Fractal.new (-2) bottom bar)
  = true.
Proof. reflexivity. Qed.
End Independence.

Section Fractals.
Import MergedKLine KLineVisualizer.

Lemma detect_fractal_type_spec klines i t :
  _detect_fractal_type klines i = Some t ↔
  ∃ p c n, inner_position klines i p c n ∧ pattern t p c n.
Proof.
  unfold _detect_fractal_type, inner_position.
  destruct (Z.eqb_spec (Z.of_nat i) 0) as [H0|H0]; simpl.
  { split; [done|]. intros (?&?&?&(?&?&?)&?). lia. }
  destruct (Z.leb_spec (Z.of_nat (length klines) - 1) (Z.of_nat i)) as [Hl|Hl].
  { split; [done|]. intros (?&?&?&(?&?&?)&?). lia. }
  destruct (klines !! (i - 1)%nat) as [p|] eqn:Hp;
    [|split; [done|]; by intros (?&?&?&(?&?&?&?&?)&?)].
  destruct (klines !! i) as [c|] eqn:Hc;
    [|split; [done|]; by intros (?&?&?&(?&?&?&?&?)&?)].
  destruct (klines !! (i + 1)%nat) as [n|] eqn:Hn;
    [|split; [done|]; by intros (?&?&?&(?&?&?&?&?)&?)].
  assert (∀ t', pattern t' p c n →
            ∃ p' c' n', ((1 ≤ i)%nat ∧ (i + 2 ≤ length klines)%nat
                         ∧ Some p = Some p' ∧ Some c = Some c' ∧ Some n = Some n')
                        ∧ pattern t' p' c' n') as Hex.
  { intros t' Ht. exists p, c, n. split; [|done]. split_and!; try done; lia. }
  assert (∀ t', (∃ p' c' n', ((1 ≤ i)%nat ∧ (i + 2 ≤ length klines)%nat
                         ∧ Some p = Some p' ∧ Some c = Some c' ∧ Some n = Some n')
                        ∧ pattern t' p' c' n') → pattern t' p c n) as Hin.
  { intros t' (p'&c'&n'&(_&_&[= <-]&[= <-]&[= <-])&Ht). done. }
  destruct (Z.ltb_spec (high p) (high c)), (Z.ltb_spec (high n) (high c)),
    (Z.ltb_spec (low p) (low c)), (Z.ltb_spec (low n) (low c)); simpl;
    try (destruct (Z.ltb_spec (high c) (high p)), (Z.ltb_spec (high c) (high n)),
           (Z.ltb_spec (low c) (low p)), (Z.ltb_spec (low c) (low n)); simpl);
    (split; [intros [= <-]; apply Hex; unfold pattern, strictly_above, strictly_below;
               lia
            |intros Ht%Hin; destruct t;
               unfold pattern, strictly_above, strictly_below in Ht;
               first [done|lia]]).
Qed.

(** The copy in the merge engine is the same function. *)
Lemma merger_detect_fractal_type_same klines i :
  KLineMerger._detect_fractal_type klines i = _detect_fractal_type klines i.
Proof. reflexivity. Qed.

Lemma detect_fractals_elem klines f :
  f ∈ detect_fractals klines ↔
  ∃ i p c n, inner_position klines i p c n ∧ pattern (Fractal.type f) p c n
             ∧ f = Fractal.new (Z.of_nat i) (Fractal.type f) c.
Proof.
  unfold detect_fractals. rewrite list_elem_of_omap. split.
  - intros (i & _ & Hf).
    destruct (_detect_fractal_type klines i) as [t|] eqn:Ht; [|done].
    apply detect_fractal_type_spec in Ht as (p & c & n & Hw & Hp).
    destruct Hw as (?&?&?&Hc&?). rewrite Hc in Hf. injection Hf as <-.
    exists i, p, c, n. done.
  - intros (i & p & c & n & Hw & Hp & Hf). exists i. split.
    + destruct Hw as (?&?&_). unfold KLineMerger.fractal_positions.
      apply elem_of_seq. lia.
    + assert (_detect_fractal_type klines i = Some (Fractal.type f)) as ->.
      { apply detect_fractal_type_spec. by exists p, c, n. }
      destruct Hw as (?&?&?&->&?). by rewrite Hf at 2.
Qed.

(** C7: a fractal is reported exactly at the inner positions
    [1 .. length - 2] whose bar is strictly above (top) or strictly below
    (bottom) both neighbours in high and in low; where a comparison is a
    tie, nothing is reported. *)
Theorem detect_fractals_strict (klines : list MergedKLine.t) :
  (∀ f, f ∈ detect_fractals klines ↔
        ∃ i p c n, inner_position klines i p c n
                   ∧ pattern (Fractal.type f) p c n
                   ∧ f = Fractal.new (Z.of_nat i) (Fractal.type f) c) ∧
  (∀ i t, (∃ f, f ∈ detect_fractals klines ∧ Fractal.index f = Z.of_nat i
                ∧ Fractal.type f = t)
          ↔ ∃ p c n, inner_position klines i p c n ∧ pattern t p c n) ∧
  (∀ i p c n, inner_position klines i p c n → tie p c n →
              ∀ f, f ∈ detect_fractals klines → Fractal.index f ≠ Z.of_nat i).
Proof.
  split; [apply detect_fractals_elem|]. split.
  - intros i t. split.
    + intros (f & Hf & Hi & Ht). apply detect_fractals_elem in Hf
        as (j & p & c & n & Hw & Hp & Hf).
      rewrite Hf in Hi. simpl in Hi. apply Nat2Z.inj in Hi as ->.
      rewrite Ht in Hp. by exists p, c, n.
    + intros (p & c & n & Hw & Hp). exists (Fractal.new (Z.of_nat i) t c).
      split; [|done]. apply detect_fractals_elem. by exists i, p, c, n.
  - intros i p c n Hw Htie f Hf Hi.
    apply detect_fractals_elem in Hf as (j & p' & c' & n' & Hw' & Hp & Hf).
    rewrite Hf in Hi. simpl in Hi. apply Nat2Z.inj in Hi as ->.
    destruct Hw as (_&_&Hp1&Hc1&Hn1), Hw' as (_&_&Hp2&Hc2&Hn2).
    simplify_eq. unfold tie in Htie.
    destruct (Fractal.type f); unfold pattern, strictly_above, strictly_below in Hp; lia.
Qed.

Lemma detect_fractals_strict_witness :
  let klines := [MergedKLine.mk 1 1 5 3 1; MergedKLine.mk 2 2 8 6 1;
                 MergedKLine.mk 3 3 8 2 1; MergedKLine.mk 4 4 9 4 1] in
  detect_fractals klines = [] ∧
  ∀ f, f ∈ detect_fractals klines → Fractal.index f ≠ 1.
Proof.
  intros klines. split; [reflexivity|].
  refine (proj2 (proj2 (detect_fractals_strict klines)) 1%nat
            (MergedKLine.mk 1 1 5 3 1) (MergedKLine.mk 2 2 8 6 1)
            (MergedKLine.mk 3 3 8 2 1) _ _).
  - unfold inner_position. simpl. repeat split; lia.
  - unfold tie. simpl. lia.
Defined.

Example detect_fractals_five_bars :
  detect_fractals [MergedKLine.mk 1 1 5 3 1; MergedKLine.mk 2 2 8 6 1;
                   MergedKLine.mk 3 3 6 4 1; MergedKLine.mk 4 4 3 1 1;
                   MergedKLine.mk 5 5 4 2 1]
  = [Fractal.new 1 top (MergedKLine.mk 2 2 8 6 1);
     Fractal.new 3 bottom (MergedKLine.mk 4 4 3 1 1)].
Proof. reflexivity. Qed.
End Fractals.

Section Degenerate.
Import KLineMerger KLineVisualizer.

(** C8: no bar gives empty results at every stage, one bar gives one
    compressed bar of count 1, no fractal and no pen, and neither run
    raises (whatever the fuel). *)
Theorem pipeline_degenerate (fuel : nat) :
  pipeline fuel [] = ([], [], Some (Return [])) ∧
  ∀ k, pipeline fuel [k]
       = ([MergedKLine.mk (KLine.timestamp k) (KLine.timestamp k)
             (KLine.high k) (KLine.low k) 1],
          [], Some (Return [])).
Proof. split; [reflexivity|]. intros k. reflexivity. Qed.

(** The stages on their own, at the boundary of each. *)
Lemma stages_degenerate objs fuel :
  merge_klines [] = [] ∧ detect_fractals [] = [] ∧
  calculate_pens objs fuel [] = Some (Return []) ∧
  (∀ m, detect_fractals [m] = []) ∧
  (∀ f, calculate_pens objs fuel [f] = Some (Return [])).
Proof. repeat split. Qed.
End Degenerate.

Section PenEnd.
Import KLineVisualizer.
Variable objs : store.
Variable start_fractal : ref.
Variable target_type : fractal_type.

Local Abbreviation valid_end := (valid_end objs start_fractal target_type).
Local Abbreviation same_kind_as_start := (same_kind_as_start objs start_fractal).
Local Abbreviation scanned := (scanned objs start_fractal target_type).

Lemma scan_step_valid c candidates lv :
  valid_end c →
  scan_pen_end objs start_fractal target_type (c :: candidates) lv
  = scan_pen_end objs start_fractal target_type candidates (Some c).
Proof. intros [Ht Hi]. simpl. rewrite decide_True by done. by rewrite Hi. Qed.

Lemma scan_step_invalid c candidates lv :
  ¬ valid_end c → (lv = None ∨ ¬ same_kind_as_start c) →
  scan_pen_end objs start_fractal target_type (c :: candidates) lv
  = scan_pen_end objs start_fractal target_type candidates lv.
Proof.
  intros Hn Hs. simpl. unfold valid_end, same_kind_as_start in *.
  destruct (decide (Fractal.type (objs c) = target_type)) as [Ht|Ht].
  - destruct (_has_independent_klines_between _ _) eqn:Hi; [|done].
    by destruct Hn.
  - destruct (decide _) as [Hk|Hk]; [|done].
    destruct Hs as [->|Hs]; [done|]. by destruct Hs.
Qed.

Lemma scan_step_stop c candidates v :
  target_type ≠ Fractal.type (objs start_fractal) → same_kind_as_start c →
  scan_pen_end objs start_fractal target_type (c :: candidates) (Some v) = Some v.
Proof.
  intros Hne Hs. simpl. unfold same_kind_as_start in Hs.
  rewrite decide_False by congruence. by rewrite decide_True by done.
Qed.

(** Without a valid candidate the scan returns what it started with. *)
Lemma scan_no_valid candidates lv :
  Forall (fun c => ¬ valid_end c) candidates →
  scan_pen_end objs start_fractal target_type candidates lv = lv.
Proof.
  induction 1 as [|c candidates Hc _ IH]; [done|].
  simpl. unfold valid_end in Hc.
  destruct (decide (Fractal.type (objs c) = target_type)) as [Ht|Ht].
  - destruct (_has_independent_klines_between _ _) eqn:Hi; [|done].
    by destruct Hc.
  - destruct (decide _); [|done]. by destruct lv.
Qed.

Lemma scan_skips_prefix pre candidates :
  Forall (fun c => ¬ valid_end c) pre →
  scan_pen_end objs start_fractal target_type (pre ++ candidates) None
  = scan_pen_end objs start_fractal target_type candidates None.
Proof.
  induction 1 as [|c pre Hc _ IH]; [done|].
  rewrite <- app_comm_cons, scan_step_invalid by auto. done.
Qed.

(** After a valid candidate the latest valid one is kept, up to the next
    fractal of the start's kind. *)
Lemma scan_after_valid mid rest v :
  target_type ≠ Fractal.type (objs start_fractal) →
  Forall (fun c => ¬ same_kind_as_start c) mid →
  (rest = [] ∨ ∃ c rest', rest = c :: rest' ∧ same_kind_as_start c) →
  scan_pen_end objs start_fractal target_type (mid ++ rest) (Some v)
  = Some (default v (last (filter valid_end mid))).
Proof.
  intros Hne Hmid Hrest. revert v.
  induction Hmid as [|c mid Hc _ IH]; intros v.
  - simpl app. destruct Hrest as [->|(c & rest' & -> & Hs)]; [done|].
    by apply scan_step_stop.
  - rewrite <- app_comm_cons. destruct (decide (valid_end c)) as [Hv|Hv].
    + rewrite scan_step_valid, IH, filter_cons_True, last_cons by done.
      by destruct (last (filter valid_end mid)).
    + rewrite scan_step_invalid, IH, filter_cons_False by auto. done.
Qed.

Lemma filter_none (l : list ref) :
  Forall (fun c => ¬ valid_end c) l → filter valid_end l = [].
Proof.
  induction 1 as [|c l Hc _ IH]; [done|]. by rewrite filter_cons_False.
Qed.

Lemma scan_scanned candidates read :
  target_type ≠ Fractal.type (objs start_fractal) →
  scanned candidates read →
  scan_pen_end objs start_fractal target_type candidates None
  = last (filter valid_end read).
Proof.
  intros Hne [[Hnone ->]|(pre & v0 & mid & rest & -> & Hpre & Hv & Hmid & Hrest & ->)].
  - by rewrite scan_no_valid, filter_none.
  - rewrite scan_skips_prefix, scan_step_valid, scan_after_valid by done.
    rewrite filter_app, (filter_none pre), filter_cons_True by done.
    rewrite app_nil_l, last_cons. by destruct (last (filter valid_end mid)).
Qed.

(** The scan always has a well-determined set of candidates read. *)
Lemma split_at_start_kind (l : list ref) :
  ∃ mid rest, l = mid ++ rest ∧
    Forall (fun c => ¬ same_kind_as_start c) mid ∧
    (rest = [] ∨ ∃ c rest', rest = c :: rest' ∧ same_kind_as_start c).
Proof.
  induction l as [|c l (mid & rest & -> & Hmid & Hrest)].
  - exists [], []. split; [done|]. split; [constructor|by left].
  - destruct (decide (same_kind_as_start c)) as [Hs|Hs].
    + exists [], (c :: mid ++ rest). split; [done|]. split; [constructor|].
      right. by exists c, (mid ++ rest).
    + exists (c :: mid), rest. split; [done|]. split; [by constructor|done].
Qed.

Lemma scanned_exists candidates : ∃ read, scanned candidates read.
Proof.
  induction candidates as [|c candidates [read IH]].
  - exists []. left. split; [constructor|done].
  - destruct (decide (valid_end c)) as [Hv|Hv].
    + destruct (split_at_start_kind candidates) as (mid & rest & -> & Hmid & Hrest).
      exists ([] ++ c :: mid). right. exists [], c, mid, rest.
      split_and!; done.
    + destruct IH as [[Hnone ->]|(pre & v0 & mid & rest & -> & Hpre & Hv0 & Hmid & Hrest & ->)].
      * exists (c :: candidates). left. split; [by constructor|done].
      * exists ((c :: pre) ++ v0 :: mid). right. exists (c :: pre), v0, mid, rest.
        split_and!; try done. by constructor.
Qed.

Lemma last_filter_None (l : list ref) :
  last (filter valid_end l) = None ↔ Forall (fun c => ¬ valid_end c) l.
Proof.
  rewrite last_None. split; [|apply filter_none].
  intros Hf. apply Forall_forall. intros c Hc Hv.
  by apply (filter_nil_not_elem_of valid_end l c).
Qed.
End PenEnd.

Section PenEndSpec.
Import KLineVisualizer.

(** C5: the valid-end search returns the last valid candidate among the
    candidates read: those before the first fractal of the start's kind
    that follows a recorded valid candidate (fractals of the start's kind
    met earlier are passed over); it returns none exactly when no
    candidate after the start is valid. The target kind is the one
    opposite to the start's, as in both calls. *)
Theorem find_valid_pen_end_spec
    (objs : store) (start_fractal : ref) (fractals : list ref) (start_index : nat)
    (target_type : fractal_type) :
  target_type ≠ Fractal.type (objs start_fractal) →
  let candidates := drop (S start_index) fractals in
  let found := _find_valid_pen_end objs start_fractal fractals start_index target_type in
  (∃ read, scanned objs start_fractal target_type candidates read) ∧
  (∀ read, scanned objs start_fractal target_type candidates read →
           found = last (filter (valid_end objs start_fractal target_type) read)) ∧
  (found = None ↔
   Forall (fun c => ¬ valid_end objs start_fractal target_type c) candidates).
Proof.
  intros Hne candidates found. split; [apply scanned_exists|].
  assert (∀ read, scanned objs start_fractal target_type candidates read →
            found = last (filter (valid_end objs start_fractal target_type) read))
    as Hread by (intros read; by apply scan_scanned).
  split; [done|]. split.
  - destruct (scanned_exists objs start_fractal target_type candidates)
      as [read Hs].
    rewrite (Hread read Hs), last_filter_None. intros Hnone.
    destruct Hs as [[_ ->]|(pre & v0 & mid & rest & _ & _ & Hv & _ & _ & ->)]; [done|].
    apply Forall_app in Hnone as [_ Hnone]. by inv Hnone.
  - apply scan_no_valid.
Qed.

Lemma find_valid_pen_end_spec_witness :
  let objs := store_of sample_fractals in
  let fractals := refs_of sample_fractals in
  _find_valid_pen_end objs 0%nat fractals 0 bottom
  = last (filter (valid_end objs 0%nat bottom) [1; 2; 3; 4]%nat)
  ∧ _find_valid_pen_end objs 0%nat fractals 0 bottom = Some 4%nat.
Proof.
  intros objs fractals. split; [|reflexivity].
  apply (find_valid_pen_end_spec objs 0%nat fractals 0 bottom).
  - vm_compute. discriminate.
  - right. exists [1; 2]%nat, 3%nat, [4]%nat, [5; 6]%nat.
    split; [reflexivity|]. split; [|split; [|split; [|split]]].
    + repeat constructor; vm_compute; intros [? ?]; discriminate.
    + split; reflexivity.
    + repeat constructor; vm_compute; discriminate.
    + right. exists 5%nat, [6]%nat. split; reflexivity.
    + reflexivity.
Defined.
End PenEndSpec.

Section Pens.
Import KLineVisualizer.
Variable objs : store.

Lemma target_of_ne f : target_of objs f ≠ Fractal.type (objs f).
Proof. unfold target_of. case_decide as H; [by rewrite H|]. by destruct (Fractal.type _). Qed.

Lemma scan_result start_fractal target_type candidates lv e :
  scan_pen_end objs start_fractal target_type candidates lv = Some e →
  lv = Some e ∨ (e ∈ candidates ∧ valid_end objs start_fractal target_type e).
Proof.
  revert lv. induction candidates as [|c candidates IH]; intros lv; simpl; [by left|].
  assert (∀ lv', scan_pen_end objs start_fractal target_type candidates lv' = Some e →
            lv' = Some e
            ∨ (e ∈ c :: candidates ∧ valid_end objs start_fractal target_type e)) as IH'.
  { intros lv' [?|[??]]%IH; [by left|right]. split; [by right|done]. }
  destruct (decide (Fractal.type (objs c) = target_type)) as [Ht|Ht].
  - destruct (_has_independent_klines_between _ _) eqn:Hi; [|apply IH'].
    intros [[= ->]|?]%IH'; [|by right]. right. split; [left|done].
  - destruct (decide _); [|apply IH']. destruct lv; [by left|apply IH'].
Qed.

Lemma find_valid_pen_end_Some start_fractal fractals start_index target_type e :
  _find_valid_pen_end objs start_fractal fractals start_index target_type = Some e →
  e ∈ drop (S start_index) fractals ∧ valid_end objs start_fractal target_type e.
Proof. intros [?|?]%scan_result; done. Qed.

Lemma new_pen_ok s e : valid_end objs s (target_of objs s) e → pen_ok objs (Pen.new objs s e).
Proof.
  intros [Ht Hi]. unfold pen_ok. simpl. split; [|split; [|split]].
  - rewrite Ht. intros Heq. by apply (target_of_ne s).
  - destruct (Z.ltb_spec (Fractal.price (objs s)) (Fractal.price (objs e)));
      split; intros; try done; lia.
  - destruct (Z.ltb_spec (Fractal.price (objs s)) (Fractal.price (objs e)));
      split; intros; try done; lia.
  - apply has_independent_klines_between_unfold in Hi as [Hd _]. lia.
Qed.

(** Whatever the list and the fuel, the pens that come out are well
    formed. *)
Lemma build_pens_ok fuel fractals pens used_fractals current_fractal result :
  Forall (pen_ok objs) pens →
  build_pens objs fuel fractals pens used_fractals current_fractal
  = Some (Return result) →
  Forall (pen_ok objs) result.
Proof.
  revert pens used_fractals current_fractal.
  induction fuel as [|fuel IH]; intros pens used cur Hok; simpl; [done|].
  destruct (list_index cur fractals) as [ci|]; [|done].
  destruct (_find_valid_pen_end _ _ _ _ _) as [e|] eqn:He.
  - apply IH. apply Forall_app. split; [done|]. apply Forall_singleton.
    apply find_valid_pen_end_Some in He as [_ Hv]. by apply new_pen_ok.
  - destruct (list_find _ _) as [[? n]|]; [by apply IH|].
    by intros [= <-].
Qed.

Lemma calculate_pens_ok fuel fractals result :
  calculate_pens objs fuel fractals = Some (Return result) → Forall (pen_ok objs) result.
Proof.
  unfold calculate_pens. case_bool_decide; [by intros [= <-]|].
  destruct (find_first_start _ _ _ _); [|by intros [= <-]].
  by apply build_pens_ok.
Qed.

Lemma list_index_Some f (l : list ref) i : list_index f l = Some i → l !! i = Some f.
Proof.
  unfold list_index. intros ([i' x] & Hf & ->)%fmap_Some.
  apply list_find_Some in Hf as (Hl & -> & _). done.
Qed.

Lemma list_index_NoDup f (l : list ref) i :
  NoDup l → l !! i = Some f → list_index f l = Some i.
Proof.
  intros Hnd Hl. unfold list_index.
  assert (list_find (fun g => g = f) l = Some (i, f)) as ->; [|done].
  apply list_find_Some. split; [done|]. split; [done|].
  intros j y Hj Hlt ->. pose proof (NoDup_lookup _ _ _ _ Hnd Hl Hj). lia.
Qed.

Lemma elem_of_drop_lookup (l : list ref) n x :
  x ∈ drop n l → ∃ j, l !! (n + j)%nat = Some x.
Proof.
  intros [j Hj]%list_elem_of_lookup_1. exists j. by rewrite <- lookup_drop.
Qed.

Lemma sublist_drop_add (k l : list ref) n j :
  k `sublist_of` drop (n + j) l → k `sublist_of` drop n l.
Proof.
  intros H. etransitivity; [done|]. rewrite <- drop_drop. apply sublist_drop.
Qed.

(** With pairwise distinct fractal objects every iteration moves
    [current_fractal] to a later position, so [length fractals - ci]
    iterations are enough; the pens start at fractals met in the order of
    the list. *)
Lemma build_pens_total fractals :
  NoDup fractals →
  ∀ fuel pens used_fractals current_fractal ci,
    fractals !! ci = Some current_fractal →
    (length fractals - ci <= fuel)%nat →
    ∃ more,
      build_pens objs fuel fractals pens used_fractals current_fractal
      = Some (Return (pens ++ more)) ∧
      (Pen.start_fractal <$> more) `sublist_of` drop ci fractals.
Proof.
  intros Hnd fuel. induction fuel as [|fuel IH]; intros pens used cur ci Hci Hfuel.
  { apply lookup_lt_Some in Hci. lia. }
  simpl. rewrite (list_index_NoDup _ _ _ Hnd Hci).
  destruct (_find_valid_pen_end _ _ _ _ _) as [e|] eqn:He.
  - apply find_valid_pen_end_Some in He as [[j Hj]%elem_of_drop_lookup _].
    apply lookup_lt_Some in Hj as Hlt.
    destruct (IH (pens ++ [Pen.new objs cur e])
                ({[e]} ∪ ({[cur]} ∪ used)) e (S ci + j)%nat Hj) as (more & -> & Hsub);
      [lia|].
    exists (Pen.new objs cur e :: more). split; [by rewrite <- app_assoc|].
    rewrite fmap_cons, (drop_S _ _ _ Hci). simpl. apply sublist_skip.
    by apply sublist_drop_add in Hsub.
  - destruct (list_find _ _) as [[k n]|] eqn:Hn.
    + apply list_find_Some in Hn as (Hk & _ & _).
      apply list_elem_of_lookup_2, list_elem_of_filter in Hk as [_ Hk].
      apply elem_of_drop_lookup in Hk as [j Hj].
      apply lookup_lt_Some in Hj as Hlt.
      destruct (IH pens used n (S ci + j)%nat Hj) as (more & -> & Hsub); [lia|].
      exists more. split; [done|].
      apply sublist_drop_add in Hsub. etransitivity; [done|].
      rewrite (drop_S _ _ _ Hci). by apply sublist_cons.
    + exists []. split; [by rewrite app_nil_r|]. apply sublist_nil_l.
Qed.

Lemma find_first_start_elem fractals from start_index c :
  find_first_start objs fractals from start_index = Some c → c ∈ from.
Proof.
  revert start_index. induction from as [|x from IH]; intros si; simpl; [done|].
  destruct (_find_valid_pen_end _ _ _ _ _); [intros [= ->]; left|].
  intros ?%IH. by right.
Qed.

Lemma calculate_pens_total fuel fractals :
  NoDup fractals → (length fractals <= fuel)%nat →
  ∃ pens, calculate_pens objs fuel fractals = Some (Return pens) ∧
          (Pen.start_fractal <$> pens) `sublist_of` fractals.
Proof.
  intros Hnd Hfuel. unfold calculate_pens.
  case_bool_decide; [exists []; split; [done|apply sublist_nil_l]|].
  destruct (find_first_start _ _ _ _) as [cur|] eqn:Hcur;
    [|exists []; split; [done|apply sublist_nil_l]].
  apply find_first_start_elem, list_elem_of_lookup_1 in Hcur as [ci Hci].
  destruct (build_pens_total fractals Hnd fuel [] ∅ cur ci Hci) as (pens & -> & Hsub);
    [lia|].
  exists pens. split; [done|]. etransitivity; [done|]. apply sublist_drop.
Qed.

(** [fractals.index(current_fractal)] always finds its object: the pen
    builder never raises. *)
Lemma build_pens_no_raise fuel fractals pens used_fractals current_fractal e :
  current_fractal ∈ fractals →
  build_pens objs fuel fractals pens used_fractals current_fractal ≠ Some (Raise e).
Proof.
  revert pens used_fractals current_fractal.
  induction fuel as [|fuel IH]; intros pens used cur Hcur; simpl; [done|].
  destruct (list_index cur fractals) as [ci|] eqn:Hci.
  - destruct (_find_valid_pen_end _ _ _ _ _) as [v|] eqn:Hv.
    + apply IH. apply find_valid_pen_end_Some in Hv as [Hv _].
      by apply (subseteq_drop (S ci) fractals).
    + destruct (list_find _ _) as [[k n]|] eqn:Hn; [|done].
      apply IH. apply list_find_Some in Hn as (Hk & _ & _).
      apply list_elem_of_lookup_2, list_elem_of_filter in Hk as [_ Hk].
      by apply (subseteq_drop (S ci) fractals).
  - unfold list_index in Hci. apply fmap_None in Hci.
    destruct (list_find_elem_of (fun g => g = cur) fractals cur Hcur eq_refl)
      as [x Hx].
    congruence.
Qed.

Lemma calculate_pens_no_raise fuel fractals e :
  calculate_pens objs fuel fractals ≠ Some (Raise e).
Proof.
  unfold calculate_pens. case_bool_decide; [done|].
  destruct (find_first_start _ _ _ _) as [cur|] eqn:Hcur; [|done].
  apply build_pens_no_raise. by eapply find_first_start_elem.
Qed.

Lemma StronglySorted_sublist {A} (R : relation A) (k l : list A) :
  k `sublist_of` l → StronglySorted R l → StronglySorted R k.
Proof.
  induction 1 as [|x k l Hkl IH|x k l Hkl IH]; intros Hs; [done| |].
  - apply StronglySorted_cons in Hs as [Hx Hs]. apply StronglySorted_cons.
    split; [|by apply IH]. rewrite Forall_forall in Hx |- *.
    intros y Hy. apply Hx. by eapply elem_of_sublist.
  - apply StronglySorted_cons in Hs as [_ Hs]. by apply IH.
Qed.
End Pens.

Section PenBuilder.
Import KLineVisualizer.

(** C4: every pen the builder emits joins fractals of different kinds, is
    [up] exactly when the end price is above the start price and [down]
    otherwise, and joins fractals more than 2 bars apart. On a sequence
    of distinct fractal objects the builder returns (within
    [length fractals] iterations) and the pens start at fractals in the
    order of the sequence, so their start indices do not decrease when
    the sequence is ordered by index. *)
Theorem calculate_pens_spec (objs : store) (fractals : list ref) :
  (∀ fuel pens,
     calculate_pens objs fuel fractals = Some (Return pens) →
     Forall (pen_ok objs) pens) ∧
  (NoDup fractals →
   ∀ fuel, (length fractals <= fuel)%nat →
     ∃ pens,
       calculate_pens objs fuel fractals = Some (Return pens) ∧
       (Pen.start_fractal <$> pens) `sublist_of` fractals ∧
       (StronglySorted Z.le ((fun f => Fractal.index (objs f)) <$> fractals) →
        StronglySorted Z.le
          ((fun p => Fractal.index (objs (Pen.start_fractal p))) <$> pens))).
Proof.
  split; [intros fuel pens; apply calculate_pens_ok|].
  intros Hnd fuel Hfuel.
  destruct (calculate_pens_total objs fuel fractals Hnd Hfuel) as (pens & Hrun & Hsub).
  exists pens. split; [done|]. split; [done|]. intros Hs.
  rewrite (list_fmap_compose Pen.start_fractal (fun f => Fractal.index (objs f))).
  eapply StronglySorted_sublist; [|done]. by apply fmap_sublist.
Qed.
End PenBuilder.

Section PenBuilderExamples.
Import KLineVisualizer.

Lemma calculate_pens_spec_witness :
  let objs := store_of sample_fractals in
  let fractals := refs_of sample_fractals in
  ∃ pens,
    calculate_pens objs 7 fractals = Some (Return pens) ∧
    Forall (pen_ok objs) pens ∧
    (Pen.start_fractal <$> pens) `sublist_of` fractals ∧
    StronglySorted Z.le
      ((fun p => Fractal.index (objs (Pen.start_fractal p))) <$> pens).
Proof.
  intros objs fractals.
  destruct (calculate_pens_spec objs fractals) as [Hok Htotal].
  destruct (Htotal (NoDup_seq 0 7) 7%nat) as (pens & Hrun & Hsub & Hs).
  - simpl. lia.
  - exists pens. split; [done|]. split; [by apply (Hok 7%nat)|]. split; [done|].
    apply Hs. repeat constructor; simpl; lia.
Defined.

(** On the sample the chain restarts once: a pen from the top at bar 1 to
    the bottom at bar 8, then one from the top at bar 10 to the bottom at
    bar 20. *)
Example calculate_pens_sample :
  calculate_pens (store_of sample_fractals) 7 (refs_of sample_fractals)
  = Some (Return [Pen.mk 0%nat 4%nat 0 0 9 7 down; Pen.mk 5%nat 6%nat 0 0 9 7 down]).
Proof. reflexivity. Qed.

Lemma build_pens_found objs fuel fractals pens used cur ci e :
  list_index cur fractals = Some ci →
  _find_valid_pen_end objs cur fractals ci (target_of objs cur) = Some e →
  build_pens objs (S fuel) fractals pens used cur
  = build_pens objs fuel fractals (pens ++ [Pen.new objs cur e])
      ({[e]} ∪ ({[cur]} ∪ used)) e.
Proof. intros Hi He. cbn [build_pens]. by rewrite Hi, He. Qed.

(** The same fractal object twice in the list ([two_fractals] stored at 0
    and 1, the list [0; 1; 0]): [fractals.index] sends the chain back to
    the first occurrence, and the loop never ends. Hence the distinct
    objects asked for above. *)
Lemma build_pens_aliased_loops fuel :
  ∀ pens used,
    build_pens (store_of two_fractals) fuel [0; 1; 0]%nat pens used 0%nat = None ∧
    build_pens (store_of two_fractals) fuel [0; 1; 0]%nat pens used 1%nat = None.
Proof.
  induction fuel as [|fuel IH]; intros pens used; [done|]. split.
  - rewrite (build_pens_found _ _ _ _ _ 0%nat 0%nat 1%nat) by reflexivity. apply IH.
  - rewrite (build_pens_found _ _ _ _ _ 1%nat 1%nat 0%nat) by reflexivity. apply IH.
Qed.

Lemma calculate_pens_aliased_loops fuel :
  calculate_pens (store_of two_fractals) fuel [0; 1; 0]%nat = None.
Proof.
  unfold calculate_pens. rewrite bool_decide_eq_false_2 by (simpl; lia).
  change (find_first_start (store_of two_fractals) [0; 1; 0]%nat [0; 1; 0]%nat 0)
    with (Some 0%nat).
  apply build_pens_aliased_loops.
Qed.

(** A sequence that is not ordered by index: the start fractals of the
    pens come in the order of the sequence (positions 0, then 1), their
    [index] fields, 10 then 0, do not. *)
Example calculate_pens_unordered :
  let bar := MergedKLine.mk 0 0 9 7 1 in
  let objs := store_of [Fractal.new 10 bottom bar; Fractal.new 0 top bar;
                        Fractal.new 20 bottom bar] in
  calculate_pens objs 3 [0; 1; 2]%nat
  = Some (Return [Pen.new objs 0%nat 1%nat; Pen.new objs 1%nat 2%nat]).
Proof. reflexivity. Qed.
End PenBuilderExamples.

Section Pipeline.
Import KLineMerger KLineVisualizer.

Lemma store_of_refs_of (fractals : list Fractal.t) :
  store_of fractals <$> refs_of fractals = fractals.
Proof.
  apply list_eq. intros i. unfold refs_of, store_of.
  rewrite list_lookup_fmap.
  destruct (decide (i < length fractals)%nat) as [Hlt|Hge].
  - rewrite lookup_seq_lt by done. simpl.
    destruct (lookup_lt_is_Some_2 fractals i Hlt) as [x Hx].
    rewrite Hx. f_equal. by apply nth_lookup_Some.
  - rewrite lookup_seq_ge, lookup_ge_None_2 by lia. done.
Qed.

Lemma omap_seq_sorted {A} (g : nat → option A) (key : A → Z) a n :
  (∀ i x, g i = Some x → key x = Z.of_nat i) →
  StronglySorted Z.le (key <$> omap g (seq a n)).
Proof.
  intros Hg. revert a. induction n as [|n IH]; intros a; [constructor|].
  simpl. destruct (g a) as [x|] eqn:Hx; [|apply IH].
  simpl. constructor; [apply IH|].
  apply Forall_forall. intros k (y & -> & (j & Hj & Hy)%list_elem_of_omap)%list_elem_of_fmap.
  apply elem_of_seq in Hj. rewrite (Hg _ _ Hx), (Hg _ _ Hy). lia.
Qed.

Lemma detect_fractals_sorted klines :
  StronglySorted Z.le (Fractal.index <$> detect_fractals klines).
Proof.
  apply omap_seq_sorted. intros i x Hx.
  destruct (_detect_fractal_type klines i), (klines !! i); try done.
  by injection Hx as <-.
Qed.

(** The pens of a whole run: the fractals the detector hands over are
    distinct objects ordered by index, so the pen builder returns, its
    pens are well formed and their start indices do not decrease. *)
Lemma pipeline_pens klines fuel :
  let fractals := detect_fractals (merge_klines klines) in
  (length fractals <= fuel)%nat →
  ∃ pens, (pipeline fuel klines).2 = Some (Return pens) ∧
          Forall (pen_ok (store_of fractals)) pens ∧
          StronglySorted Z.le
            ((fun p => Fractal.index (store_of fractals (Pen.start_fractal p))) <$> pens).
Proof.
  intros fractals Hfuel.
  destruct (calculate_pens_total (store_of fractals) fuel (refs_of fractals))
    as (pens & Hrun & Hsub); [apply NoDup_seq|by unfold refs_of; rewrite length_seq|].
  exists pens. split; [done|]. split; [by eapply calculate_pens_ok|].
  rewrite (list_fmap_compose Pen.start_fractal
             (fun f => Fractal.index (store_of fractals f))).
  eapply StronglySorted_sublist; [by apply fmap_sublist|].
  rewrite (list_fmap_compose (store_of fractals) Fractal.index), store_of_refs_of.
  apply detect_fractals_sorted.
Qed.
End Pipeline.

(** * Further properties *)

#[local] Set Warnings "-clear-no-such-hyp".

(** ** The merge engine *)

Section MergeMore.
Import MergedKLine KLineMerger.

Lemma adjacent_snoc {A} (R : A → A → Prop) (l : list A) (x : A) :
  adjacent R (l ++ [x]) ↔ adjacent R l ∧ (∀ y, last l = Some y → R y x).
Proof.
  unfold adjacent. split.
  - intros H. split.
    + intros i a b Ha Hb. apply (H i); by apply lookup_app_l_Some.
    + intros y Hy. rewrite last_lookup in Hy.
      destruct l as [|z l]; [done|]. simpl in Hy.
      apply (H (length l)).
      * by apply lookup_app_l_Some.
      * by apply (list_lookup_middle (z :: l) []).
  - intros [Hl Hx] i a b Ha Hb.
    apply lookup_lt_Some in Hb as Hi. rewrite length_app in Hi. simpl in Hi.
    rewrite lookup_app_l in Ha by lia.
    destruct (decide (S i < length l)%nat) as [Hlt|Hge].
    + rewrite lookup_app_l in Hb by done. by apply (Hl i).
    + assert (S i = length l) as Hi' by lia.
      rewrite Hi', list_lookup_middle in Hb by done. injection Hb as <-.
      apply Hx. rewrite last_lookup, <- Hi'. done.
Qed.

Lemma merge_step_finalized st k : st.1 `prefix_of` (merge_step st k).1.
Proof.
  destruct st as [res cur].
  destruct (merge_step_cases res cur k) as [[_ ->]|[_ ->]]; cbn [fst].
  - done.
  - by apply prefix_app_r.
Qed.

Lemma merge_fold_finalized rest st : st.1 `prefix_of` (fold_left merge_step rest st).1.
Proof.
  revert st. induction rest as [|k rest IH]; intros st; simpl; [done|].
  etransitivity; [apply merge_step_finalized|apply IH].
Qed.

(** X1: a bar once finalized is never revised: all compressed bars of an
    input but the last one are again the first compressed bars of every
    longer input. *)
Theorem merge_klines_finalized_stable (klines more : list KLine.t) :
  take (length (merge_klines klines) - 1) (merge_klines klines)
  `prefix_of` merge_klines (klines ++ more).
Proof.
  destruct klines as [|k0 rest]; [apply prefix_nil|].
  rewrite <- app_comm_cons, !merge_klines_fold, fold_left_app.
  destruct (fold_left merge_step rest _) as [res cur] eqn:E. cbn [fst snd].
  rewrite length_app, Nat.add_sub, take_app_length.
  apply prefix_app_r. apply (merge_fold_finalized more (res, cur)).
Qed.

Lemma merge_step_length st k :
  (length (merge_step st k).1 <= S (length st.1))%nat.
Proof.
  destruct st as [res cur].
  destruct (merge_step_cases res cur k) as [[_ ->]|[_ ->]]; cbn [fst].
  - lia.
  - rewrite length_app. simpl. lia.
Qed.

Lemma merge_fold_length rest st :
  (length (fold_left merge_step rest st).1 <= length st.1 + length rest)%nat.
Proof.
  revert st. induction rest as [|k rest IH]; intros st; simpl; [lia|].
  pose proof (IH (merge_step st k)). pose proof (merge_step_length st k). lia.
Qed.

Lemma merge_klines_length_nil (klines : list KLine.t) :
  (length (merge_klines klines) <= length klines)%nat ∧
  (merge_klines klines = [] ↔ klines = []).
Proof.
  destruct klines as [|k0 rest]; [done|].
  rewrite merge_klines_fold. split.
  - pose proof (merge_fold_length rest ([], _kline_to_merged k0)) as H.
    rewrite length_app. simpl in *. lia.
  - split; [|done]. intros H. by apply app_nil in H as [_ ?].
Qed.

(** X2: the merge returns at least one bar for a non-empty input and never
    more bars than it was given. *)
Theorem merge_klines_length (klines : list KLine.t) :
  (length (merge_klines klines) <= length klines)%nat ∧
  (merge_klines klines = [] ↔ klines = []).
Proof. apply merge_klines_length_nil. Qed.

(** X3: when the current bar contains the candidate, the merged bar lies
    between the two: inside the current bar and around the candidate,
    whatever the trend. *)
Theorem merge_inclusion_between (k1 k2 : MergedKLine.t) (trend_direction : trend) :
  contains k1 k2 →
  contains k1 (_merge_inclusion_relationship k1 k2 trend_direction) ∧
  contains (_merge_inclusion_relationship k1 k2 trend_direction) k2.
Proof.
  intros [Hh Hl].
  destruct (merge_inclusion_fields k1 k2 trend_direction) as (_ & _ & _ & Hmh & Hml).
  unfold contains. rewrite Hmh, Hml. destruct trend_direction; lia.
Qed.

Lemma merge_inclusion_between_witness :
  let k1 := MergedKLine.mk 1 1 10 5 1 in
  let k2 := MergedKLine.mk 2 2 9 6 1 in
  contains k1 (_merge_inclusion_relationship k1 k2 down) ∧
  contains (_merge_inclusion_relationship k1 k2 down) k2.
Proof.
  intros k1 k2. apply (merge_inclusion_between k1 k2 down).
  unfold contains. simpl. lia.
Defined.
End MergeMore.

Section MergeIdentity.
Import MergedKLine KLineMerger.

(** The merge has left the bars [k0 :: pre] as they are exactly as long
    as no bar contained its successor. *)
Lemma identity_inv_step k0 pre st k :
  ((adjacent (fun a b => ¬ raw_contains a b) (k0 :: pre)
    ∧ st.1 ++ [st.2] = _kline_to_merged <$> k0 :: pre)
   ∨ (¬ adjacent (fun a b => ¬ raw_contains a b) (k0 :: pre)
      ∧ (length (st.1 ++ [st.2]) < length (k0 :: pre))%nat)) →
  ((adjacent (fun a b => ¬ raw_contains a b) (k0 :: pre ++ [k])
    ∧ (merge_step st k).1 ++ [(merge_step st k).2]
      = _kline_to_merged <$> k0 :: pre ++ [k])
   ∨ (¬ adjacent (fun a b => ¬ raw_contains a b) (k0 :: pre ++ [k])
      ∧ (length ((merge_step st k).1 ++ [(merge_step st k).2])
         < length (k0 :: pre ++ [k]))%nat)).
Proof.
  destruct st as [res cur]. cbn [fst snd].
  rewrite app_comm_cons, adjacent_snoc, fmap_app.
  pose proof (merge_step_length (res, cur) k) as Hlen. cbn [fst] in Hlen.
  assert (∀ l : list MergedKLine.t, length (l ++ [cur]) = S (length l)) as Hsnoc.
  { intros l. rewrite length_app. simpl. lia. }
  assert (∀ (l : list MergedKLine.t) x, length (l ++ [x]) = S (length l)) as Hsnoc'.
  { intros l x. rewrite length_app. simpl. lia. }
  assert (length ((k0 :: pre) ++ [k]) = S (length (k0 :: pre))) as Hpre.
  { rewrite length_app. simpl. lia. }
  rewrite Hpre, !Hsnoc'.
  intros [[Hadj Heq]|[Hadj Hlt]].
  - assert (∃ kl, last (k0 :: pre) = Some kl ∧ cur = _kline_to_merged kl)
      as (kl & Hkl & ->).
    { apply (f_equal last) in Heq. rewrite last_snoc in Heq.
      rewrite fmap_last in Heq. destruct (last (k0 :: pre)) as [kl|]; [|done].
      exists kl. split; [done|]. by injection Heq. }
    apply (f_equal length) in Heq as Hl. rewrite Hsnoc', length_fmap in Hl.
    destruct (merge_step_cases res (_kline_to_merged kl) k) as [[Hc ->]|[Hc ->]];
      cbn [fst snd].
    + right. split; [|lia]. intros [_ Hx]. by apply (Hx kl).
    + left. split.
      * split; [done|]. intros y Hy. by simplify_eq.
      * by rewrite Heq.
  - right. split; [by intros [? _]|]. lia.
Qed.

(** X4: the merge returns its input unchanged, bar for bar, exactly when
    no input bar contains the bar that follows it. *)
Theorem merge_klines_identity_iff (klines : list KLine.t) :
  merge_klines klines = _kline_to_merged <$> klines
  ↔ adjacent (fun a b => ¬ raw_contains a b) klines.
Proof.
  destruct klines as [|k0 rest]; [by split; [intros _ i a b ?|]|].
  rewrite merge_klines_fold.
  pose proof (merge_fold_ind
                (fun pre st =>
                   (adjacent (fun a b => ¬ raw_contains a b) (k0 :: pre)
                    ∧ st.1 ++ [st.2] = _kline_to_merged <$> k0 :: pre)
                   ∨ (¬ adjacent (fun a b => ¬ raw_contains a b) (k0 :: pre)
                      ∧ (length (st.1 ++ [st.2]) < length (k0 :: pre))%nat))
                (identity_inv_step k0) rest [] ([], _kline_to_merged k0)) as H.
  destruct H as [[Hadj Heq]|[Hadj Hlt]].
  - left. split; [|done]. intros i a b Ha Hb. by destruct i.
  - done.
  - split; [|intros Hadj'; by destruct Hadj].
    intros Heq. rewrite Heq, length_fmap in Hlt. simpl in Hlt. lia.
Qed.
End MergeIdentity.

Section MergeGroups.
Import MergedKLine KLineMerger.

Lemma group_of_single k : group_of [k] (_kline_to_merged k).
Proof.
  exists k, k. split_and!; try done; exists k; (split; [left|done]).
Qed.

Lemma group_of_extend g m k t :
  group_of g m →
  group_of (g ++ [k]) (_merge_inclusion_relationship m (_kline_to_merged k) t).
Proof.
  intros (first_k & last_k & Hh & Hl & Hs & He & Hn & (rh & Hrh & Hhigh) & (rl & Hrl & Hlow)).
  destruct (merge_inclusion_fields m (_kline_to_merged k) t)
    as (Hs' & He' & Hn' & Hh' & Hl').
  exists first_k, k. split; [|split; [|split; [|split; [|split; [|split]]]]].
  - destruct g; [done|]. simpl in *. done.
  - apply last_snoc.
  - congruence.
  - rewrite He'. done.
  - rewrite Hn', Hn, length_app, Nat2Z.inj_add. done.
  - rewrite Hh'. cbn [_kline_to_merged high].
    destruct t.
    + destruct (Z.max_spec (high m) (KLine.high k)) as [[_ ->]|[_ ->]].
      * exists k. split; [|done]. apply elem_of_app. right. left.
      * exists rh. split; [|done]. apply elem_of_app. by left.
    + destruct (Z.min_spec (high m) (KLine.high k)) as [[_ ->]|[_ ->]].
      * exists rh. split; [|done]. apply elem_of_app. by left.
      * exists k. split; [|done]. apply elem_of_app. right. left.
  - rewrite Hl'. cbn [_kline_to_merged low].
    destruct t.
    + destruct (Z.max_spec (low m) (KLine.low k)) as [[_ ->]|[_ ->]].
      * exists k. split; [|done]. apply elem_of_app. right. left.
      * exists rl. split; [|done]. apply elem_of_app. by left.
    + destruct (Z.min_spec (low m) (KLine.low k)) as [[_ ->]|[_ ->]].
      * exists rl. split; [|done]. apply elem_of_app. by left.
      * exists k. split; [|done]. apply elem_of_app. right. left.
Qed.

Lemma groups_inv_step k0 pre st k :
  (∃ gs g, concat gs ++ g = k0 :: pre ∧ Forall2 group_of gs st.1 ∧ group_of g st.2) →
  (∃ gs g, concat gs ++ g = k0 :: pre ++ [k]
           ∧ Forall2 group_of gs (merge_step st k).1
           ∧ group_of g (merge_step st k).2).
Proof.
  destruct st as [res cur]. cbn [fst snd]. intros (gs & g & Hcat & Hgs & Hg).
  destruct (merge_step_cases res cur k) as [[_ ->]|[_ ->]]; cbn [fst snd].
  - exists gs, (g ++ [k]). split; [by rewrite app_assoc, Hcat|].
    split; [done|]. by apply group_of_extend.
  - exists (gs ++ [g]), [k]. split.
    + rewrite concat_app. simpl. rewrite app_nil_r, Hcat. done.
    + split; [|apply group_of_single].
      apply Forall2_app; [done|]. by constructor.
Qed.

(** X5: the compressed bars stand for consecutive runs of the input: the
    input splits into as many runs as there are compressed bars, and each
    bar spans its run in time, counts its bars and has the high of one of
    them and the low of one of them. *)
Theorem merge_klines_groups (klines : list KLine.t) :
  ∃ groups, concat groups = klines ∧ Forall2 group_of groups (merge_klines klines).
Proof.
  destruct klines as [|k0 rest]; [by exists []|].
  rewrite merge_klines_fold.
  destruct (merge_fold_ind
              (fun pre st =>
                 ∃ gs g, concat gs ++ g = k0 :: pre
                         ∧ Forall2 group_of gs st.1 ∧ group_of g st.2)
              (groups_inv_step k0) rest [] ([], _kline_to_merged k0))
    as (gs & g & Hcat & Hgs & Hg).
  { exists [], [k0]. split; [done|]. split; [constructor|apply group_of_single]. }
  exists (gs ++ [g]). split.
  - rewrite concat_app. simpl. by rewrite app_nil_r.
  - apply Forall2_app; [done|]. by constructor.
Qed.
End MergeGroups.

Section MergeTime.
Import MergedKLine KLineMerger.

Lemma time_inv_step k0 pre st k :
  (StronglySorted Z.lt (KLine.timestamp <$> k0 :: pre) →
   Forall spans st.1 ∧ spans st.2 ∧ adjacent before (st.1 ++ [st.2]) ∧
   ∃ kl, last (k0 :: pre) = Some kl ∧ end_time st.2 = KLine.timestamp kl) →
  (StronglySorted Z.lt (KLine.timestamp <$> k0 :: pre ++ [k]) →
   Forall spans (merge_step st k).1 ∧ spans (merge_step st k).2 ∧
   adjacent before ((merge_step st k).1 ++ [(merge_step st k).2]) ∧
   ∃ kl, last (k0 :: pre ++ [k]) = Some kl
         ∧ end_time (merge_step st k).2 = KLine.timestamp kl).
Proof.
  destruct st as [res cur]. cbn [fst snd]. intros IH Hs.
  rewrite app_comm_cons in Hs |- *. rewrite fmap_app in Hs.
  apply StronglySorted_app in Hs as (Hlt & Hs & _).
  destruct (IH Hs) as (Hres & Hcur & Hadj & kl & Hkl & Hend).
  assert (end_time cur < KLine.timestamp k) as Hek.
  { rewrite Hend. apply Hlt; [|left].
    apply list_elem_of_fmap_2, last_Some_elem_of, Hkl. }
  unfold spans in Hcur.
  destruct (merge_step_cases res cur k) as [[_ ->]|[_ ->]]; cbn [fst snd].
  - destruct (merge_inclusion_fields cur (_kline_to_merged k)
                (_determine_trend_direction cur (_kline_to_merged k) res))
      as (Hst & He & _).
    cbn [_kline_to_merged end_time] in He.
    split; [done|]. split; [unfold spans; lia|]. split.
    + apply adjacent_snoc in Hadj as [Hadj HL]. apply adjacent_snoc.
      split; [done|]. intros y Hy. specialize (HL y Hy). unfold before in *. lia.
    + exists k. split; [apply last_snoc|done].
  - split; [apply Forall_app; split; [done|by apply Forall_singleton]|].
    split; [unfold spans; simpl; lia|]. split.
    + apply adjacent_snoc. split; [done|]. intros y. rewrite last_snoc.
      intros [= <-]. unfold before. simpl. lia.
    + exists k. split; [apply last_snoc|done].
Qed.

(** X6: on bars with strictly increasing timestamps the compressed bars
    follow one another in time: no bar ends before it starts, each ends
    before the next starts, and so the start times strictly increase. *)
Theorem merge_klines_time_ordered (klines : list KLine.t) :
  StronglySorted Z.lt (KLine.timestamp <$> klines) →
  Forall spans (merge_klines klines) ∧
  adjacent before (merge_klines klines) ∧
  adjacent (fun a b => start_time a < start_time b) (merge_klines klines).
Proof.
  intros Hs.
  assert (Forall spans (merge_klines klines) ∧ adjacent before (merge_klines klines))
    as [Hsp Hadj].
  { destruct klines as [|k0 rest]; [by split; [constructor|intros i a b ?]|].
    rewrite merge_klines_fold.
    destruct (merge_fold_ind
                (fun pre st =>
                   StronglySorted Z.lt (KLine.timestamp <$> k0 :: pre) →
                   Forall spans st.1 ∧ spans st.2 ∧ adjacent before (st.1 ++ [st.2]) ∧
                   ∃ kl, last (k0 :: pre) = Some kl
                         ∧ end_time st.2 = KLine.timestamp kl)
                (time_inv_step k0) rest [] ([], _kline_to_merged k0))
      as (Hres & Hcur & Hadj & _); [|done|].
    { intros _. cbn [fst snd]. split; [constructor|]. split; [unfold spans; simpl; lia|].
      split; [by intros [|i] a b ? ?|]. by exists k0. }
    split; [|done]. apply Forall_app. split; [done|]. by apply Forall_singleton. }
  split; [done|]. split; [done|].
  intros i a b Ha Hb. specialize (Hadj i a b Ha Hb).
  apply list_elem_of_lookup_2 in Ha. rewrite Forall_forall in Hsp.
  specialize (Hsp a Ha). unfold spans, before in *. lia.
Qed.

Lemma merge_klines_time_ordered_witness :
  let klines := [KLine.mk 1 10 8; KLine.mk 2 9 8; KLine.mk 3 12 9; KLine.mk 5 11 10] in
  merge_klines klines = [MergedKLine.mk 1 2 10 8 2; MergedKLine.mk 3 5 12 10 2] ∧
  Forall spans (merge_klines klines) ∧
  adjacent before (merge_klines klines) ∧
  adjacent (fun a b => start_time a < start_time b) (merge_klines klines).
Proof.
  intros klines. split; [reflexivity|].
  apply (merge_klines_time_ordered klines).
  repeat constructor; simpl; lia.
Defined.
End MergeTime.

Section MergeCollapse.
Import MergedKLine KLineMerger.



End MergeCollapse.

Section MergeResidual.
Import MergedKLine KLineMerger.

Lemma stands_against_contains prev cur :
  stands_against prev cur → contains_only_merged prev cur.
Proof. unfold stands_against, contains_only_merged, contains. lia. Qed.

Lemma residual_inv_step st k :
  (1 <= original_count st.2 ∧ adjacent contains_only_merged st.1
   ∧ ∀ prev_k, last st.1 = Some prev_k → stands_against prev_k st.2) →
  (1 <= original_count (merge_step st k).2
   ∧ adjacent contains_only_merged (merge_step st k).1
   ∧ ∀ prev_k, last (merge_step st k).1 = Some prev_k
               → stands_against prev_k (merge_step st k).2).
Proof.
  destruct st as [res cur]. cbn [fst snd]. intros (Hn & Hadj & Hst).
  destruct (merge_step_cases res cur k) as [[Hc ->]|[Hc ->]]; cbn [fst snd].
  - destruct (merge_inclusion_fields cur (_kline_to_merged k)
                (_determine_trend_direction cur (_kline_to_merged k) res))
      as (_ & _ & Hcount & Hhigh & Hlow).
    cbn [_kline_to_merged original_count] in Hcount.
    assert (∀ t, original_count (_merge_inclusion_relationship cur (_kline_to_merged k) t)
                 = original_count cur + 1) as Hcnt.
    { intros t. by destruct (merge_inclusion_fields cur (_kline_to_merged k) t)
        as (_ & _ & -> & _). }
    split; [lia|]. split; [done|]. intros prev_k Hlast.
    specialize (Hst prev_k Hlast). revert Hhigh Hlow.
    unfold _determine_trend_direction. rewrite Hlast.
    unfold stands_against, contains in *.
    destruct (Z.leb_spec (high prev_k) (high cur)).
    { cbn beta iota. intros -> ->. rewrite Hcnt. lia. }
    destruct (Z.leb_spec (low cur) (low prev_k)); [|lia].
    cbn beta iota. intros -> ->. rewrite Hcnt. lia.
  - split; [simpl; lia|]. split.
    + apply adjacent_snoc. split; [done|]. intros y Hy.
      by apply stands_against_contains, Hst.
    + intros prev_k. rewrite last_snoc. intros [= <-].
      unfold stands_against, contains in *. simpl in *. lia.
Qed.

(** X21: what is left of inclusion in the output: a compressed bar
    contains its successor only if both have the same high and the
    successor was itself merged from at least two raw bars. *)
Theorem merge_klines_residual_inclusion (klines : list KLine.t) :
  adjacent contains_only_merged (merge_klines klines).
Proof.
  destruct klines as [|k0 rest]; [by intros i a b ?|].
  rewrite merge_klines_fold.
  destruct (merge_fold_ind
              (fun _ st =>
                 1 <= original_count st.2 ∧ adjacent contains_only_merged st.1
                 ∧ ∀ prev_k, last st.1 = Some prev_k → stands_against prev_k st.2)
              (fun _ => residual_inv_step) rest [] ([], _kline_to_merged k0))
    as (_ & Hadj & Hst).
  { split; [simpl; lia|]. split; [by intros i a b ?|]. by intros prev_k. }
  apply adjacent_snoc. split; [done|]. intros y Hy.
  by apply stands_against_contains, Hst.
Qed.
End MergeResidual.

(** ** The fractal detector *)

Section FractalsMore.
Import MergedKLine KLineMerger KLineVisualizer.

Lemma omap_seq_increasing {A} (g : nat → option A) (key : A → Z) a n :
  (∀ i x, g i = Some x → key x = Z.of_nat i) →
  StronglySorted Z.lt (key <$> omap g (seq a n)).
Proof.
  intros Hg. revert a. induction n as [|n IH]; intros a; [constructor|].
  simpl. destruct (g a) as [x|] eqn:Hx; [|apply IH].
  simpl. constructor; [apply IH|].
  apply Forall_forall. intros k (y & -> & (j & Hj & Hy)%list_elem_of_omap)%list_elem_of_fmap.
  apply elem_of_seq in Hj. rewrite (Hg _ _ Hx), (Hg _ _ Hy). lia.
Qed.

(** X8: the fractals come out in strictly increasing order of index, so no
    bar is reported twice. *)
Theorem detect_fractals_increasing (klines : list MergedKLine.t) :
  StronglySorted Z.lt (Fractal.index <$> detect_fractals klines).
Proof.
  apply omap_seq_increasing. intros i x Hx.
  destruct (_detect_fractal_type klines i), (klines !! i); try done.
  by injection Hx as <-.
Qed.

(** X9: fractals at two neighbouring bars are of opposite kinds: a top is
    never followed at once by a top, nor a bottom by a bottom. *)
Theorem detect_fractals_neighbours_alternate
    (klines : list MergedKLine.t) (f g : Fractal.t) :
  f ∈ detect_fractals klines → g ∈ detect_fractals klines →
  Fractal.index g = Fractal.index f + 1 →
  Fractal.type f ≠ Fractal.type g.
Proof.
  intros (i & p & c & n & (_ & _ & _ & Hc & Hn) & Hpat & Hf)%detect_fractals_elem
         (j & p' & c' & n' & (_ & _ & Hp' & Hc' & _) & Hpat' & Hg)%detect_fractals_elem
         Hidx Hty.
  rewrite Hf, Hg in Hidx. simpl in Hidx.
  assert (j = i + 1)%nat as -> by lia.
  replace (i + 1 - 1)%nat with i in Hp' by lia.
  rewrite <- Hty in Hpat'. simplify_eq.
  destruct (Fractal.type f);
    unfold pattern, strictly_above, strictly_below in Hpat, Hpat'; lia.
Qed.

Lemma detect_fractals_neighbours_alternate_witness :
  let klines := [MergedKLine.mk 1 1 5 3 1; MergedKLine.mk 2 2 8 6 1;
                 MergedKLine.mk 3 3 4 2 1; MergedKLine.mk 4 4 9 4 1] in
  detect_fractals klines
  = [Fractal.new 1 top (MergedKLine.mk 2 2 8 6 1);
     Fractal.new 2 bottom (MergedKLine.mk 3 3 4 2 1)] ∧
  Fractal.type (Fractal.new 1 top (MergedKLine.mk 2 2 8 6 1))
  ≠ Fractal.type (Fractal.new 2 bottom (MergedKLine.mk 3 3 4 2 1)).
Proof.
  intros klines. split; [reflexivity|].
  apply (detect_fractals_neighbours_alternate klines).
  - left.
  - right. left.
  - reflexivity.
Defined.

(** X10: the diagnostic scan of the merge engine and the detector of the
    visualizer report the same fractals: same positions, same kinds, same
    bars. *)
Theorem merger_detect_fractals_agree (klines : list MergedKLine.t) :
  _detect_fractals klines
  = (fun f => (Z.to_nat (Fractal.index f), Fractal.type f, Fractal.kline f))
      <$> detect_fractals klines.
Proof.
  unfold _detect_fractals, detect_fractals.
  induction (fractal_positions klines) as [|i l IH]; [done|].
  simpl. change (KLineMerger._detect_fractal_type klines i)
    with (_detect_fractal_type klines i).
  destruct (_detect_fractal_type klines i) as [t|], (klines !! i) as [k|];
    simpl; try apply IH.
  rewrite Nat2Z.id. f_equal. apply IH.
Qed.

Lemma length_omap_le {A B} (g : A → option B) (l : list A) :
  (length (omap g l) <= length l)%nat.
Proof.
  induction l as [|x l IH]; [done|].
  change (omap g (x :: l))
    with (match g x with Some y => y :: omap g l | None => omap g l end).
  destruct (g x); simpl; lia.
Qed.

(** X11: there are at most [length - 2] fractals; fewer than three bars
    have none. *)
Theorem detect_fractals_length (klines : list MergedKLine.t) :
  (length (detect_fractals klines) <= length klines - 2)%nat.
Proof.
  unfold detect_fractals, fractal_positions.
  etransitivity; [apply length_omap_le|]. by rewrite length_seq.
Qed.

(** X12: independence does not depend on the order of the two fractals,
    and no fractal is independent of itself. *)
Theorem has_independent_klines_between_sym (f1 f2 : Fractal.t) :
  _has_independent_klines_between f1 f2 = _has_independent_klines_between f2 f1 ∧
  _has_independent_klines_between f1 f1 = false.
Proof.
  split.
  - apply eq_true_iff_eq. rewrite !has_independent_klines_between_unfold.
    rewrite (Z.min_comm (Fractal.index f2)), (Z.max_comm (Fractal.index f2)).
    split; intros (? & k & ? & ? & ?); (split; [done|]); by exists k.
  - apply not_true_is_false. rewrite has_independent_klines_between_unfold. lia.
Qed.
End FractalsMore.

(** ** The pen builder *)

Section PensMore.
Import KLineVisualizer.
Variable objs : store.

Lemma build_pens_chain fractals :
  NoDup fractals →
  ∀ fuel pens used_fractals current_fractal ci result,
    fractals !! ci = Some current_fractal →
    build_pens objs fuel fractals pens used_fractals current_fractal
    = Some (Return result) →
    ∃ more, result = pens ++ more ∧ pen_chain fractals ci more.
Proof.
  intros Hnd fuel. induction fuel as [|fuel IH]; intros pens used cur ci result Hci;
    simpl; [done|].
  rewrite (list_index_NoDup _ _ _ Hnd Hci).
  destruct (_find_valid_pen_end _ _ _ _ _) as [e|] eqn:He.
  - apply find_valid_pen_end_Some in He as [[j Hj]%elem_of_drop_lookup _].
    intros (more & -> & Hchain)%(IH _ _ _ _ _ Hj).
    exists (Pen.new objs cur e :: more). split; [by rewrite <- app_assoc|].
    simpl. exists ci, (S ci + j)%nat. split_and!; try done; lia.
  - destruct (list_find _ _) as [[k n]|] eqn:Hn.
    + apply list_find_Some in Hn as (Hk & _ & _).
      apply list_elem_of_lookup_2, list_elem_of_filter in Hk as [_ Hk].
      apply elem_of_drop_lookup in Hk as [j Hj].
      intros (more & -> & Hchain)%(IH _ _ _ _ _ Hj).
      exists more. split; [done|].
      destruct more as [|p more]; [done|].
      destruct Hchain as (s & e' & ? & ? & ? & ? & ?).
      exists s, e'. split_and!; try done; lia.
    + intros [= <-]. exists []. by rewrite app_nil_r.
Qed.

Lemma calculate_pens_runs_forward (fractals : list ref) (fuel : nat) (pens : list Pen.t) :
  NoDup fractals →
  calculate_pens objs fuel fractals = Some (Return pens) →
  pen_chain fractals 0 pens.
Proof.
  intros Hnd. unfold calculate_pens. case_bool_decide; [by intros [= <-]|].
  destruct (find_first_start _ _ _ _) as [cur|] eqn:Hcur; [|by intros [= <-]].
  apply find_first_start_elem, list_elem_of_lookup_1 in Hcur as [ci Hci].
  intros (more & -> & Hchain)%(build_pens_chain fractals Hnd _ _ _ _ _ _ Hci).
  simpl. destruct more as [|p more]; [done|].
  destruct Hchain as (s & e & ? & ? & ? & ? & ?).
  exists s, e. split_and!; try done; lia.
Qed.

(** X13: on distinct fractal objects the pens run forward through the
    fractal list without overlap: each pen ends strictly after it starts,
    and the next pen starts at the end of the previous one or later. *)
Theorem calculate_pens_chain (fractals : list ref) (fuel : nat) (pens : list Pen.t) :
  NoDup fractals →
  calculate_pens objs fuel fractals = Some (Return pens) →
  pen_chain fractals 0 pens.
Proof. apply calculate_pens_runs_forward. Qed.

Lemma pen_chain_length fractals lo pens :
  pen_chain fractals lo pens → pens ≠ [] → (lo + length pens < length fractals)%nat.
Proof.
  revert lo. induction pens as [|p pens IH]; intros lo; [done|].
  intros (s & e & Hlo & Hse & Hs & He & Hchain) _.
  apply lookup_lt_Some in He. simpl.
  destruct pens as [|q pens]; [simpl; lia|].
  specialize (IH e Hchain ltac:(done)). simpl in *. lia.
Qed.

(** X14: on distinct fractal objects there are fewer pens than fractals,
    unless there is no fractal: then there is no pen. *)
Theorem calculate_pens_fewer (fractals : list ref) (fuel : nat) (pens : list Pen.t) :
  NoDup fractals →
  calculate_pens objs fuel fractals = Some (Return pens) →
  (fractals = [] → pens = []) ∧
  (fractals ≠ [] → (length pens < length fractals)%nat).
Proof.
  intros Hnd Hrun. destruct pens as [|p pens].
  - split; [done|]. destruct fractals; [done|]. simpl. lia.
  - pose proof (pen_chain_length fractals 0 (p :: pens)
                  (calculate_pens_runs_forward fractals fuel _ Hnd Hrun) ltac:(done))
      as Hlen.
    split; [|simpl in *; lia]. intros ->. simpl in Hlen. lia.
Qed.

Lemma find_first_start_none fractals from start_index :
  (∀ f g, f ∈ fractals → g ∈ fractals →
          _has_independent_klines_between (objs f) (objs g) = false) →
  from ⊆ fractals →
  find_first_start objs fractals from start_index = None.
Proof.
  intros Hnone. revert start_index.
  induction from as [|c from IH]; intros si Hsub; simpl; [done|].
  unfold _find_valid_pen_end. rewrite scan_no_valid.
  - apply IH. set_solver.
  - apply Forall_forall. intros g Hg [_ Hv].
    rewrite Hnone in Hv; [done|set_solver|].
    by apply (subseteq_drop (S si) fractals).
Qed.

(** Where no two fractals of the list are independent, there is no pen. *)
Lemma calculate_pens_none_independent fractals fuel :
  (∀ f g, f ∈ fractals → g ∈ fractals →
          _has_independent_klines_between (objs f) (objs g) = false) →
  calculate_pens objs fuel fractals = Some (Return []).
Proof.
  intros Hnone. unfold calculate_pens. case_bool_decide; [done|].
  by rewrite find_first_start_none.
Qed.

Lemma used_behind_later fractals ci ci' used :
  (ci <= ci')%nat → used_behind fractals ci used → used_behind fractals ci' used.
Proof. intros Hle H f j Hf Hj. specialize (H f j Hf Hj). lia. Qed.

Lemma filter_all {A} (P : A → Prop) `{!∀ x, Decision (P x)} (l : list A) :
  Forall P l → filter P l = l.
Proof.
  induction 1 as [|x l Hx _ IH]; [done|]. by rewrite filter_cons_True, IH.
Qed.

Lemma remaining_unfiltered fractals ci (used : gset ref) :
  used_behind fractals ci used →
  filter (fun f => f ∉ used) (drop (S ci) fractals) = drop (S ci) fractals.
Proof.
  intros Hb. apply filter_all. apply Forall_forall.
  intros f [j Hj]%elem_of_drop_lookup Hf. specialize (Hb f _ Hf Hj). lia.
Qed.

(** X15: on distinct fractal objects the set of used fractals never
    removes a candidate for a new start: every used fractal lies at or
    before the current one, so the second loop gives the same pens as it
    does with an empty set. *)
Theorem build_pens_used_irrelevant
    (fractals : list ref) (fuel : nat) (pens : list Pen.t) (used_fractals : gset ref)
    (current_fractal : ref) (ci : nat) :
  NoDup fractals →
  fractals !! ci = Some current_fractal →
  used_behind fractals ci used_fractals →
  build_pens objs fuel fractals pens used_fractals current_fractal
  = build_pens objs fuel fractals pens ∅ current_fractal.
Proof.
  intros Hnd. revert pens used_fractals current_fractal ci.
  assert (∀ fuel pens u1 u2 cur ci,
            fractals !! ci = Some cur →
            used_behind fractals ci u1 → used_behind fractals ci u2 →
            build_pens objs fuel fractals pens u1 cur
            = build_pens objs fuel fractals pens u2 cur) as Hgen.
  { clear fuel. intros fuel. induction fuel as [|fuel IH];
      intros pens u1 u2 cur ci Hci H1 H2; simpl; [done|].
    rewrite (list_index_NoDup _ _ _ Hnd Hci).
    destruct (_find_valid_pen_end _ _ _ _ _) as [e|] eqn:He.
    - apply find_valid_pen_end_Some in He as [[j Hj]%elem_of_drop_lookup _].
      assert (∀ u, used_behind fractals ci u →
                used_behind fractals (S ci + j) ({[e]} ∪ ({[cur]} ∪ u))) as Hext.
      { intros u Hu f i [->%elem_of_singleton|[->%elem_of_singleton|Hf]%elem_of_union]%elem_of_union Hi.
        - by rewrite (NoDup_lookup _ _ _ _ Hnd Hi Hj).
        - rewrite (NoDup_lookup _ _ _ _ Hnd Hi Hci). lia.
        - specialize (Hu f i Hf Hi). lia. }
      apply (IH _ _ _ _ _ Hj); by apply Hext.
    - rewrite !remaining_unfiltered by done.
      destruct (list_find _ _) as [[k n]|] eqn:Hn; [|done].
      apply list_find_Some in Hn as (Hk & _ & _).
      apply list_elem_of_lookup_2, elem_of_drop_lookup in Hk as [j Hj].
      apply (IH _ _ _ _ _ Hj); (apply (used_behind_later fractals ci); [lia|done]). }
  intros pens used cur ci Hci Hu. apply (Hgen _ _ _ _ _ _ Hci Hu).
  intros f j Hf. set_solver.
Qed.
End PensMore.

Section PensPipeline.
Import KLineMerger KLineVisualizer.

Lemma store_of_elem (fractals : list Fractal.t) (f : ref) :
  f ∈ refs_of fractals → store_of fractals f ∈ fractals.
Proof.
  unfold refs_of, store_of. intros [_ Hf]%elem_of_seq. simpl in Hf.
  destruct (lookup_lt_is_Some_2 fractals f Hf) as [x Hx].
  rewrite (nth_lookup_Some _ _ _ _ Hx). by eapply list_elem_of_lookup_2.
Qed.

(** X16: with fewer than 7 compressed bars there is no pen: the fractals
    lie at bars 1 to 4 at most, and no two of them are independent. *)
Theorem pipeline_short_no_pens (fuel : nat) (klines : list KLine.t) :
  (length (merge_klines klines) < 7)%nat →
  (pipeline fuel klines).2 = Some (Return []).
Proof.
  intros Hlen. unfold pipeline. cbn [snd].
  apply calculate_pens_none_independent. intros f g Hf Hg.
  apply store_of_elem, detect_fractals_elem in Hf
    as (i & ? & ? & ? & (? & ? & _) & _ & ->).
  apply store_of_elem, detect_fractals_elem in Hg
    as (j & ? & ? & ? & (? & ? & _) & _ & ->).
  apply not_true_is_false. rewrite has_independent_klines_between_unfold.
  unfold occupies. simpl. intros (Hd & k & Hk & Hn1 & Hn2). lia.
Qed.

Lemma pipeline_short_no_pens_witness :
  let klines := [KLine.mk 1 5 3; KLine.mk 2 8 6; KLine.mk 3 6 4; KLine.mk 4 3 1;
                 KLine.mk 5 4 2] in
  (pipeline 0 klines).1.2
  = [Fractal.new 1 top (MergedKLine.mk 2 2 8 6 1);
     Fractal.new 3 bottom (MergedKLine.mk 4 4 3 1 1)] ∧
  (pipeline 0 klines).2 = Some (Return []).
Proof.
  intros klines. split; [reflexivity|].
  apply (pipeline_short_no_pens 0 klines). simpl. lia.
Defined.

(** X22: a whole run gives pens: the fractals the detector hands over are
    distinct objects ordered by index, so with as many iterations as there
    are fractals the pen builder returns, its pens are well formed and
    their start indices do not decrease. *)
Theorem pipeline_gives_pens (klines : list KLine.t) (fuel : nat) :
  let fractals := detect_fractals (merge_klines klines) in
  (length fractals <= fuel)%nat →
  ∃ pens, (pipeline fuel klines).2 = Some (Return pens) ∧
          Forall (pen_ok (store_of fractals)) pens ∧
          StronglySorted Z.le
            ((fun p => Fractal.index (store_of fractals (Pen.start_fractal p))) <$> pens).
Proof. apply pipeline_pens. Qed.

Lemma pipeline_gives_pens_witness :
  let klines := [KLine.mk 1 5 3; KLine.mk 2 8 6; KLine.mk 3 7 5; KLine.mk 4 6 4;
                 KLine.mk 5 5 3; KLine.mk 6 4 2; KLine.mk 7 5 3] in
  let fractals := detect_fractals (merge_klines klines) in
  fractals = [Fractal.new 1 top (MergedKLine.mk 2 2 8 6 1);
              Fractal.new 5 bottom (MergedKLine.mk 6 6 4 2 1)] ∧
  ∃ pens, (pipeline 2 klines).2 = Some (Return pens) ∧
          Forall (pen_ok (store_of fractals)) pens ∧
          StronglySorted Z.le
            ((fun p => Fractal.index (store_of fractals (Pen.start_fractal p))) <$> pens).
Proof.
  intros klines fractals. split; [reflexivity|].
  apply (pipeline_gives_pens klines 2). simpl. lia.
Defined.

(** X23: the pen builder never raises: [fractals.index(current_fractal)]
    always finds its object, so whatever the list, the store and the
    number of iterations, a run either is still going when the iterations
    are used up or returns a list of pens. *)
Theorem pen_builder_never_raises (objs : store) (fuel : nat) (fractals : list ref) :
  calculate_pens objs fuel fractals = None
  ∨ ∃ pens, calculate_pens objs fuel fractals = Some (Return pens).
Proof.
  pose proof (calculate_pens_no_raise objs fuel fractals) as H.
  destruct (calculate_pens objs fuel fractals) as [[pens|e]|]; [right|..|by left].
  - by exists pens.
  - by destruct (H e).
Qed.

End PensPipeline.

Section PensWitnesses.
Import KLineVisualizer.

Lemma calculate_pens_chain_witness :
  pen_chain (refs_of sample_fractals) 0
    [Pen.mk 0%nat 4%nat 0 0 9 7 down; Pen.mk 5%nat 6%nat 0 0 9 7 down].
Proof.
  apply (calculate_pens_chain (store_of sample_fractals) (refs_of sample_fractals) 7).
  - apply NoDup_seq.
  - reflexivity.
Defined.

Lemma calculate_pens_fewer_witness :
  (length [Pen.mk 0%nat 4%nat 0 0 9 7 down; Pen.mk 5%nat 6%nat 0 0 9 7 down]
   < length (refs_of sample_fractals))%nat.
Proof.
  apply (calculate_pens_fewer (store_of sample_fractals) (refs_of sample_fractals) 7).
  - apply NoDup_seq.
  - reflexivity.
  - discriminate.
Defined.

Lemma build_pens_used_irrelevant_witness :
  build_pens (store_of sample_fractals) 7 (refs_of sample_fractals) []
    {[0%nat; 4%nat]} 4%nat
  = build_pens (store_of sample_fractals) 7 (refs_of sample_fractals) [] ∅ 4%nat.
Proof.
  apply (build_pens_used_irrelevant (store_of sample_fractals)
           (refs_of sample_fractals) 7 [] {[0%nat; 4%nat]} 4%nat 4%nat).
  - apply NoDup_seq.
  - reflexivity.
  - intros f j [->%elem_of_singleton| ->%elem_of_singleton]%elem_of_union Hj.
    + apply lookup_seq in Hj. simpl in Hj. lia.
    + apply lookup_seq in Hj. simpl in Hj. lia.
Defined.
End PensWitnesses.

(** ** The attributes of the visualizer *)

Section VisualizerState.
Import KLineVisualizer.
Variable objs : store.

(** The loop with the used set is the loop of [calculate_pens]. *)
Lemma build_pens_used_pens fuel fractals pens used cur :
  build_pens objs fuel fractals pens used cur
  = pens_only <$> Visualizer.build_pens_used objs fuel fractals pens used cur.
Proof.
  revert pens used cur. induction fuel as [|fuel IH]; intros pens used cur; simpl; [done|].
  destruct (list_index cur fractals) as [ci|]; [|done].
  destruct (_find_valid_pen_end _ _ _ _ _) as [e|]; [apply IH|].
  destruct (list_find _ _) as [[k n]|]; [apply IH|done].
Qed.

Lemma endpoints_cons p pens :
  endpoints (p :: pens)
  = {[Pen.end_fractal p]} ∪ ({[Pen.start_fractal p]} ∪ endpoints pens).
Proof. unfold endpoints. rewrite !fmap_cons, !list_to_set_cons. set_solver. Qed.

Lemma build_pens_used_endpoints fuel fractals pens used cur result used' :
  Visualizer.build_pens_used objs fuel fractals pens used cur
  = Some (Return (result, used')) →
  ∃ more, result = pens ++ more ∧ used' = used ∪ endpoints more.
Proof.
  revert pens used cur. induction fuel as [|fuel IH]; intros pens used cur; simpl; [done|].
  destruct (list_index cur fractals) as [ci|]; [|done].
  destruct (_find_valid_pen_end _ _ _ _ _) as [e|].
  - intros (more & -> & ->)%IH. exists (Pen.new objs cur e :: more).
    split; [by rewrite <- app_assoc|]. rewrite endpoints_cons. simpl. set_solver.
  - destruct (list_find _ _) as [[k n]|]; [apply IH|].
    intros [= <- <-]. exists []. rewrite app_nil_r. split; [done|].
    unfold endpoints. simpl. set_solver.
Qed.

(** X17: after a run of [calculate_pens] on two or more fractals the
    object holds the pens returned, [used_fractals] is exactly the set of
    fractals at which some pen starts or ends, and these are the fractals
    that get a marker; the list returned is the one the pen builder
    computes. *)
Theorem visualizer_calculate_pens_state
    (fuel : nat) (self self' : Visualizer.t) (fractals : list ref) (pens : list Pen.t) :
  (2 <= length fractals)%nat →
  Visualizer.calculate_pens objs fuel self (Some fractals) = Some (Return (pens, self')) →
  calculate_pens objs fuel fractals = Some (Return pens) ∧
  Visualizer.pens self' = pens ∧
  Visualizer.fractals self' = Visualizer.fractals self ∧
  Visualizer.used_fractals self' = Some (endpoints pens) ∧
  ∀ f, f ∈ Visualizer.marked_fractals self' fractals
       ↔ f ∈ fractals ∧ ∃ p, p ∈ pens ∧ (f = Pen.start_fractal p ∨ f = Pen.end_fractal p).
Proof.
  intros Hlen. unfold Visualizer.calculate_pens, calculate_pens.
  rewrite bool_decide_eq_false_2 by lia.
  assert (∀ (ps : list Pen.t) (f : ref),
            f ∈ endpoints ps
            ↔ ∃ p, p ∈ ps ∧ (f = Pen.start_fractal p ∨ f = Pen.end_fractal p)) as Hend.
  { intros ps f. unfold endpoints.
    rewrite elem_of_union, !elem_of_list_to_set, !list_elem_of_fmap. naive_solver. }
  destruct (find_first_start _ _ _ _) as [cur|].
  - rewrite build_pens_used_pens.
    destruct (Visualizer.build_pens_used _ _ _ _ _ _) as [[[ps u]|e]|] eqn:Hrun; [|done..].
    intros [= <- <-]. apply build_pens_used_endpoints in Hrun as (more & -> & ->).
    simpl. split_and!; try done.
    + f_equal. set_solver.
    + intros f. unfold Visualizer.marked_fractals. simpl.
      rewrite list_elem_of_filter, <- Hend. set_solver.
  - intros [= <- <-]. simpl. split_and!; try done.
    intros f. unfold Visualizer.marked_fractals. simpl.
    rewrite list_elem_of_filter. split; [set_solver|].
    intros [_ (p & Hp & _)]. by apply not_elem_of_nil in Hp.
Qed.

Lemma kind_count_filter (kind : fractal_type) (l : list ref) :
  Z.of_nat (length (filter (fun f => Fractal.type (objs f) = kind) l))
  = kind_count objs kind l.
Proof.
  induction l as [|f l IH]; [done|]. simpl.
  destruct (decide (Fractal.type (objs f) = kind)) as [Hk|Hk].
  - rewrite filter_cons_True by done. simpl length. lia.
  - rewrite filter_cons_False by done. lia.
Qed.

Lemma kind_count_total (l : list ref) :
  kind_count objs top l + kind_count objs bottom l = Z.of_nat (length l).
Proof.
  induction l as [|f l IH]; [done|]. simpl kind_count. simpl length.
  destruct (Fractal.type (objs f));
    repeat match goal with |- context [decide ?P] => destruct (decide P) end;
    try done; lia.
Qed.

(** X18: the fractal summary is empty exactly when there is no fractal;
    otherwise its four entries are the number of fractals, the number of
    tops among them, the number of bottoms among them and the number of
    pens; tops and bottoms add up to the number of fractals. *)
Theorem get_fractal_summary_counts (self : Visualizer.t) :
  (Visualizer.get_fractal_summary objs self = [] ↔ Visualizer.fractals self = []) ∧
  (Visualizer.fractals self ≠ [] →
   Visualizer.get_fractal_summary objs self
   = [("总分型数"%string, Z.of_nat (length (Visualizer.fractals self)));
      ("顶分型数"%string, kind_count objs top (Visualizer.fractals self));
      ("底分型数"%string, kind_count objs bottom (Visualizer.fractals self));
      ("笔的数量"%string, Z.of_nat (length (Visualizer.pens self)))]) ∧
  kind_count objs top (Visualizer.fractals self)
  + kind_count objs bottom (Visualizer.fractals self)
  = Z.of_nat (length (Visualizer.fractals self)).
Proof.
  split; [|split; [|apply kind_count_total]].
  - unfold Visualizer.get_fractal_summary.
    by destruct (Visualizer.fractals self).
  - intros Hne. unfold Visualizer.get_fractal_summary.
    rewrite !kind_count_filter.
    by destruct (Visualizer.fractals self).
Qed.
End VisualizerState.

Section VisualizerWitnesses.
Import KLineVisualizer.

Lemma visualizer_calculate_pens_state_witness :
  let objs := store_of sample_fractals in
  let fractals := refs_of sample_fractals in
  let pens := [Pen.mk 0%nat 4%nat 0 0 9 7 down; Pen.mk 5%nat 6%nat 0 0 9 7 down] in
  let self := Visualizer.mk fractals [] None in
  let self' := Visualizer.mk fractals pens (Some {[0%nat; 4%nat; 5%nat; 6%nat]}) in
  calculate_pens objs 7 fractals = Some (Return pens) ∧
  Visualizer.pens self' = pens ∧
  Visualizer.fractals self' = Visualizer.fractals self ∧
  Visualizer.used_fractals self' = Some (endpoints pens) ∧
  ∀ f, f ∈ Visualizer.marked_fractals self' fractals
       ↔ f ∈ fractals ∧ ∃ p, p ∈ pens ∧ (f = Pen.start_fractal p ∨ f = Pen.end_fractal p).
Proof.
  intros objs fractals pens self self'.
  apply (visualizer_calculate_pens_state objs 7 self self' fractals pens).
  - simpl. lia.
  - vm_compute. reflexivity.
Defined.

Lemma get_fractal_summary_counts_witness :
  let objs := store_of sample_fractals in
  let self := Visualizer.mk (refs_of sample_fractals) [] None in
  Visualizer.get_fractal_summary objs self
  = [("总分型数"%string, 7); ("顶分型数"%string, 3);
     ("底分型数"%string, 4); ("笔的数量"%string, 0)].
Proof.
  intros objs self.
  apply (proj1 (proj2 (get_fractal_summary_counts objs self))). discriminate.
Defined.
End VisualizerWitnesses.

(** ** The tool: validation, then merge *)

Section Tool.
Import KLineMerger.

Lemma invalid_count_spec (klines : list KLine.t) (n : Z) :
  let invalid_count :=
    fold_left (fun invalid_count kline =>
                 if KLine.high kline <? KLine.low kline
                 then invalid_count + 1 else invalid_count) klines n in
  n <= invalid_count ∧ (invalid_count = n ↔ Forall valid_raw klines).
Proof.
  revert n. induction klines as [|k klines IH]; intros n; simpl.
  - split; [lia|]. split; [constructor|done].
  - rewrite Forall_cons. unfold valid_raw at 1.
    destruct (Z.ltb_spec (KLine.high k) (KLine.low k)) as [Hlt|Hge].
    + destruct (IH (n + 1)) as [Hle _]. cbv zeta in Hle. split; [lia|].
      split; [lia|]. intros [? _]. lia.
    + destruct (IH n) as [Hle Hiff]. cbv zeta in Hle, Hiff. split; [done|].
      rewrite Hiff. tauto.
Qed.

Lemma validate_data_spec (self : ChanKLineTool.t) :
  ChanKLineTool.validate_data self = true
  ↔ ChanKLineTool.original_klines self ≠ []
    ∧ Forall valid_raw (ChanKLineTool.original_klines self).
Proof.
  unfold ChanKLineTool.validate_data.
  destruct (ChanKLineTool.original_klines self) as [|k klines] eqn:E.
  - split; [done|]. by intros [? _].
  - destruct (invalid_count_spec (k :: klines) 0) as [_ Hiff]. cbv zeta in Hiff.
    rewrite Z.eqb_eq, Hiff. split; [by split|by intros [_ ?]].
Qed.

(** X20: validation and merge compose on valid data: when there is at
    least one bar, every bar has [high >= low] and the timestamps do not
    decrease, [validate_data] answers True, the tool's [merge_klines]
    succeeds and keeps the original bars, the bars it stores are well
    formed, they are no more than the original bars, and their counts add
    up to the number of original bars. *)
Theorem valid_data_merge (self : ChanKLineTool.t) :
  ChanKLineTool.original_klines self ≠ [] →
  Forall valid_raw (ChanKLineTool.original_klines self) →
  Sorted Z.le (KLine.timestamp <$> ChanKLineTool.original_klines self) →
  ChanKLineTool.validate_data self = true ∧
  let '(ok, self') := ChanKLineTool.merge_klines self in
  ok = true ∧
  ChanKLineTool.original_klines self' = ChanKLineTool.original_klines self ∧
  ChanKLineTool.merged_klines self' ≠ [] ∧
  Forall well_formed (ChanKLineTool.merged_klines self') ∧
  (length (ChanKLineTool.merged_klines self')
   <= length (ChanKLineTool.original_klines self))%nat ∧
  total_merged_count (ChanKLineTool.merged_klines self')
  = Z.of_nat (length (ChanKLineTool.original_klines self)).
Proof.
  intros Hne Hv Hs. split; [by apply validate_data_spec|].
  unfold ChanKLineTool.merge_klines.
  destruct (ChanKLineTool.original_klines self) as [|k0 rest] eqn:E; [done|].
  cbn [ChanKLineTool.original_klines ChanKLineTool.merged_klines].
  destruct (merge_klines_length_nil (k0 :: rest)) as [Hlen Hnil].
  split; [done|]. split; [done|]. split; [by rewrite Hnil|].
  apply (Sorted_StronglySorted _) in Hs.
  rewrite merge_klines_fold in *.
  pose proof (merge_fold_ind (counts_inv k0) (counts_inv_step k0) rest []
                _ (counts_inv_init k0)) as H.
  destruct (H Hv Hs) as (Hres & Hcur & _ & Hsum). split; [|split; [done|]].
  - apply Forall_app. split; [done|]. by apply Forall_singleton.
  - rewrite total_merged_count_app. simpl in *. lia.
Qed.

Lemma valid_data_merge_witness :
  let self := ChanKLineTool.mk [KLine.mk 1 10 8; KLine.mk 2 9 8; KLine.mk 2 12 9] [] in
  ChanKLineTool.validate_data self = true ∧
  let '(ok, self') := ChanKLineTool.merge_klines self in
  ok = true ∧
  ChanKLineTool.original_klines self' = ChanKLineTool.original_klines self ∧
  ChanKLineTool.merged_klines self' ≠ [] ∧
  Forall well_formed (ChanKLineTool.merged_klines self') ∧
  (length (ChanKLineTool.merged_klines self')
   <= length (ChanKLineTool.original_klines self))%nat ∧
  total_merged_count (ChanKLineTool.merged_klines self')
  = Z.of_nat (length (ChanKLineTool.original_klines self)).
Proof.
  intros self.
  apply (valid_data_merge self).
  - discriminate.
  - repeat constructor; unfold valid_raw; simpl; lia.
  - repeat constructor; simpl; lia.
Defined.
End Tool.

(** ** Prices that can be NaN *)

Section OverNumbers.

Lemma float_max_num (a b : Z) : Float.max (Float.num a) (Float.num b) = Float.num (Z.max a b).
Proof.
  unfold Float.max. simpl. destruct (Z.ltb_spec a b); f_equal; lia.
Qed.

Lemma float_min_num (a b : Z) : Float.min (Float.num a) (Float.num b) = Float.num (Z.min a b).
Proof.
  unfold Float.min. simpl. destruct (Z.ltb_spec b a); f_equal; lia.
Qed.

Lemma of_has_inclusion_relationship (k1 k2 : MergedKLine.t) :
  OverFloat.KLineMerger._has_inclusion_relationship (of_MergedKLine k1) (of_MergedKLine k2)
  = KLineMerger._has_inclusion_relationship k1 k2.
Proof. reflexivity. Qed.

Lemma of_merge_inclusion_relationship (k1 k2 : MergedKLine.t) (t : trend) :
  OverFloat.KLineMerger._merge_inclusion_relationship
    (of_MergedKLine k1) (of_MergedKLine k2) t
  = of_MergedKLine (KLineMerger._merge_inclusion_relationship k1 k2 t).
Proof.
  unfold OverFloat.KLineMerger._merge_inclusion_relationship,
    KLineMerger._merge_inclusion_relationship, of_MergedKLine.
  destruct t; simpl; by rewrite ?float_max_num, ?float_min_num.
Qed.

Lemma of_determine_trend_direction (current_k next_k : MergedKLine.t)
    (merged_klines : list MergedKLine.t) :
  OverFloat.KLineMerger._determine_trend_direction
    (of_MergedKLine current_k) (of_MergedKLine next_k) (of_MergedKLine <$> merged_klines)
  = KLineMerger._determine_trend_direction current_k next_k merged_klines.
Proof.
  unfold OverFloat.KLineMerger._determine_trend_direction,
    KLineMerger._determine_trend_direction.
  rewrite fmap_last. by destruct (last merged_klines).
Qed.

Lemma of_merge_step (st : KLineMerger.merge_state) (kline : KLine.t) :
  OverFloat.KLineMerger.merge_step (of_merge_state st) (of_KLine kline)
  = of_merge_state (KLineMerger.merge_step st kline).
Proof.
  destruct st as [merged_result current_merged].
  unfold OverFloat.KLineMerger.merge_step, KLineMerger.merge_step, of_merge_state.
  cbn [fst snd].
  change (OverFloat.KLineMerger._kline_to_merged (of_KLine kline))
    with (of_MergedKLine (KLineMerger._kline_to_merged kline)).
  rewrite of_has_inclusion_relationship.
  destruct (KLineMerger._has_inclusion_relationship _ _) as [[] []]; cbn [fst snd];
    rewrite ?fmap_app, ?of_merge_inclusion_relationship,
      ?of_determine_trend_direction; done.
Qed.

Lemma of_merge_fold (rest : list KLine.t) (st : KLineMerger.merge_state) :
  fold_left OverFloat.KLineMerger.merge_step (of_KLine <$> rest) (of_merge_state st)
  = of_merge_state (fold_left KLineMerger.merge_step rest st).
Proof.
  revert st. induction rest as [|k rest IH]; intros st; [done|].
  rewrite fmap_cons. cbn [fold_left]. by rewrite of_merge_step, IH.
Qed.


Lemma float_valid_raw_number (k : OverFloat.KLine.t) :
  float_valid_raw k → ∃ r, k = of_KLine r ∧ valid_raw r.
Proof.
  destruct k as [ts [|h] [|l]]; unfold float_valid_raw; simpl; try done.
  intros H%Z.leb_le. exists (KLine.mk ts h l). by split.
Qed.

Lemma float_valid_raw_numbers (klines : list OverFloat.KLine.t) :
  Forall float_valid_raw klines →
  ∃ l, klines = of_KLine <$> l ∧ Forall valid_raw l.
Proof.
  induction 1 as [|k klines Hk _ (l & -> & Hl)]; [by exists []|].
  destruct (float_valid_raw_number k Hk) as (r & -> & Hr).
  exists (r :: l). split; [done|by constructor].
Qed.

(** X24: in a run of the merge on valid bars ([high >= low] answers True
    on each, so no price is NaN) the fallback of the trend rule is never
    reached: after any number of bars, one of the two comparisons answers
    True for the bar being built against the last finalized bar. *)
Theorem merge_trend_decided_on_valid
    (k0 : OverFloat.KLine.t) (rest : list OverFloat.KLine.t) :
  Forall float_valid_raw (k0 :: rest) →
  comparison_fires
    (fold_left OverFloat.KLineMerger.merge_step rest
       ([], OverFloat.KLineMerger._kline_to_merged k0)).
Proof.
  intros (l & Hl & _)%float_valid_raw_numbers.
  destruct l as [|r0 l]; [done|]. injection Hl as -> ->.
  change ([], OverFloat.KLineMerger._kline_to_merged (of_KLine r0))
    with (of_merge_state ([], KLineMerger._kline_to_merged r0)).
  rewrite of_merge_fold.
  pose proof (merge_loop_trend_decided r0 l) as Hd.
  destruct (fold_left KLineMerger.merge_step l _) as [res cur].
  unfold trend_decided in Hd. unfold comparison_fires, of_merge_state.
  cbn [fst snd] in *. intros prev_k. rewrite fmap_last.
  destruct (last res) as [p|]; [|done]. intros [= <-].
  destruct (Hd p eq_refl) as [H|H]; [left|right]; simpl; by apply Z.leb_le.
Qed.

Lemma merge_trend_decided_on_valid_witness :
  let k0 := OverFloat.KLine.mk 1 (Float.num 10) (Float.num 5) in
  let k1 := OverFloat.KLine.mk 2 (Float.num 12) (Float.num 6) in
  let k2 := OverFloat.KLine.mk 3 (Float.num 11) (Float.num 7) in
  comparison_fires
    (fold_left OverFloat.KLineMerger.merge_step [k1; k2]
       ([], OverFloat.KLineMerger._kline_to_merged k0)).
Proof.
  intros k0 k1 k2.
  apply (merge_trend_decided_on_valid k0 [k1; k2]).
  repeat constructor.
Defined.
End OverNumbers.

Section OverNaN.
Import OverFloat.MergedKLine OverFloat.KLineMerger.

Lemma not_inside_previous_step (st : merge_state) (kline : OverFloat.KLine.t) :
  not_inside_previous st → not_inside_previous (merge_step st kline).
Proof.
  destruct st as [res cur]. unfold not_inside_previous, merge_step. cbn [fst snd].
  intros IH.
  destruct (_has_inclusion_relationship cur (_kline_to_merged kline))
    as [b i] eqn:Hincl.
  assert (Hfin : ∀ prev_k, last (res ++ [cur]) = Some prev_k →
            Float.geb (high cur) (high (_kline_to_merged kline))
            && Float.leb (low cur) (low (_kline_to_merged kline)) = false →
            Float.ltb (high (_kline_to_merged kline)) (high prev_k) = false
            ∨ Float.gtb (low (_kline_to_merged kline)) (low prev_k) = false).
  { intros prev_k. rewrite last_snoc. intros [= <-].
    destruct cur as [? ? [|hc] [|lc] ?], kline as [? [|hk] [|lk]]; simpl;
      try (by left); try (by right).
    intros [H|H]%andb_false_iff; [left|right].
    - apply Z.ltb_ge. apply Z.leb_gt in H. lia.
    - apply Z.ltb_ge. apply Z.leb_gt in H. lia. }
  unfold _has_inclusion_relationship in Hincl. cbv zeta in Hincl.
  destruct (Float.geb (high cur) (high (_kline_to_merged kline))
            && Float.leb (low cur) (low (_kline_to_merged kline))) eqn:Hc.
  - injection Hincl as <- <-. cbn [fst snd].
    intros prev_k Hlast. specialize (IH _ Hlast).
    unfold _determine_trend_direction. rewrite Hlast.
    apply andb_true_iff in Hc as [Hh Hl].
    destruct cur as [? ? [|hc] [|lc] ?], kline as [? [|hk] [|lk]],
      prev_k as [? ? [|hp] [|lp] ?]; simpl in *; try done;
      try (by left); try (by right).
    all: repeat match goal with
           | |- context [?a <=? ?b] => destruct (Z.leb_spec a b); simpl
           | |- context [?a <? ?b] => destruct (Z.ltb_spec a b); simpl
           end;
         repeat match goal with
           | H : (_ <=? _) = true |- _ => apply Z.leb_le in H
           | H : (_ <? _) = false |- _ => apply Z.ltb_ge in H
           | H : _ ∨ _ |- _ => destruct H
           end;
         rewrite ?float_max_num, ?float_min_num; simpl;
         try done; try (by left); try (by right); rewrite ?Z.ltb_ge; lia.
  - destruct (Float.geb (high (_kline_to_merged kline)) (high cur)
              && Float.leb (low (_kline_to_merged kline)) (low cur));
      injection Hincl as <- <-; cbn [fst snd]; intros prev_k Hlast;
      by apply Hfin.
Qed.

(** X26: whatever the prices, NaN included, the bar being built never
    lies strictly inside the last finalized bar: in no state of a run do
    [current.high < previous.high] and [current.low > previous.low] both
    answer True. *)
Theorem merge_never_strictly_inside
    (k0 : OverFloat.KLine.t) (rest : list OverFloat.KLine.t) :
  not_inside_previous (fold_left merge_step rest ([], _kline_to_merged k0)).
Proof.
  assert (∀ st, not_inside_previous st →
                not_inside_previous (fold_left merge_step rest st)) as H.
  { induction rest as [|k rest IH]; intros st Hst; [done|].
    simpl. by apply IH, not_inside_previous_step. }
  apply H. intros prev_k. cbn [fst]. by rewrite last_nil.
Qed.
End OverNaN.

Section ToolOverNaN.

Lemma accepted_count_spec (klines : list OverFloat.KLine.t) (n : Z) :
  let invalid_count :=
    fold_left (fun invalid_count kline =>
                 if Float.ltb (OverFloat.KLine.high kline) (OverFloat.KLine.low kline)
                 then invalid_count + 1 else invalid_count) klines n in
  n <= invalid_count ∧ (invalid_count = n ↔ Forall accepted klines).
Proof.
  revert n. induction klines as [|k klines IH]; intros n; simpl.
  - split; [lia|]. split; [constructor|done].
  - rewrite Forall_cons. unfold accepted at 1.
    destruct (Float.ltb (OverFloat.KLine.high k) (OverFloat.KLine.low k)).
    + destruct (IH (n + 1)) as [Hle _]. cbv zeta in Hle. split; [lia|].
      split; [lia|]. by intros [? _].
    + destruct (IH n) as [Hle Hiff]. cbv zeta in Hle, Hiff. split; [done|].
      rewrite Hiff. tauto.
Qed.

(** X19: [validate_data] answers True exactly when there is at least one
    bar and [high < low] answers False on every bar; on no data it answers
    False. *)
Theorem validate_data_accepts_iff (self : OverFloat.ChanKLineTool.t) :
  OverFloat.ChanKLineTool.validate_data self = true
  ↔ OverFloat.ChanKLineTool.original_klines self ≠ []
    ∧ Forall accepted (OverFloat.ChanKLineTool.original_klines self).
Proof.
  unfold OverFloat.ChanKLineTool.validate_data.
  destruct (OverFloat.ChanKLineTool.original_klines self) as [|k klines] eqn:E.
  - split; [done|]. by intros [? _].
  - destruct (accepted_count_spec (k :: klines) 0) as [_ Hiff]. cbv zeta in Hiff.
    rewrite Z.eqb_eq, Hiff. split; [by split|by intros [_ ?]].
Qed.

(** A bar with a NaN price passes the constructor and [validate_data],
    although [high >= low] answers False on it. *)
Lemma validate_data_accepts_nan :
  let kline := OverFloat.KLine.mk 1 (Float.num 10) Float.nan in
  OverFloat.KLine.new 1 (Float.num 10) Float.nan = Return kline ∧
  OverFloat.ChanKLineTool.validate_data (OverFloat.ChanKLineTool.mk [kline] []) = true ∧
  Float.geb (OverFloat.KLine.high kline) (OverFloat.KLine.low kline) = false.
Proof. done. Qed.
End ToolOverNaN.
